(** * XLIFF Fixer: the heuristic repair pipeline of [services/repairService.ts]
      and the AI repair boundary of [services/geminiService.ts].

    A JavaScript string is a sequence of UTF-16 code units; the regular
    expressions of the source carry no [u] flag, so they work on code units.
    Regular expressions are embedded as backtracking matchers (functions from
    the text at the current position to the prioritised list of ways to match
    there), and [RegExp.prototype.test] / [String.prototype.replace] as
    functions over such matchers. *)

From Stdlib Require Import List NArith Bool Ascii String DecimalString Lia.
Import ListNotations.
Open Scope N_scope.
Open Scope list_scope.

(** ** Strings *)

Definition unit16 := N.
Definition jsstring := list unit16.

(** An ASCII literal as a JavaScript string. *)
Definition js (s : string) : jsstring := map N_of_ascii (list_ascii_of_string s).

(** A single ASCII character as a code unit. *)
Definition ch (a : ascii) : unit16 := N_of_ascii a.

(** [a === b] on strings. *)
Fixpoint str_eqb (a b : jsstring) : bool :=
  match a, b with
  | [], [] => true
  | x :: a', y :: b' => (x =? y) && str_eqb a' b'
  | _, _ => false
  end.

(** ** The regular-expression fragment used by the source *)

Module RegExp.

(** One way of matching at the current position: the text consumed, the text
    left, and what capture group 1 holds (if it took part). *)
Record outcome := Outcome {
  matched : jsstring;
  rest : jsstring;
  group1 : option jsstring
}.

(** A pattern, run on the text from the current position on, yields its
    outcomes in backtracking order (the first is the one the engine takes). *)
Definition matcher := jsstring -> list outcome.

(** A character class (or a single character). *)
Definition cls (p : unit16 -> bool) : matcher := fun s =>
  match s with
  | c :: t => if p c then [Outcome [c] t None] else []
  | [] => []
  end.

Definition chr (a : ascii) : matcher := cls (N.eqb (ch a)).

(** Concatenation. Group 1 keeps the value set last. *)
Definition then_ (o : outcome) (o' : outcome) : outcome :=
  Outcome (matched o ++ matched o') (rest o')
          (match group1 o' with Some g => Some g | None => group1 o end).

Definition seq (m1 m2 : matcher) : matcher := fun s =>
  flat_map (fun o => map (then_ o) (m2 (rest o))) (m1 s).

(** Alternation [m1|m2]: the left alternative is tried first. *)
Definition alt (m1 m2 : matcher) : matcher := fun s => m1 s ++ m2 s.

Fixpoint alts (ms : list matcher) : matcher :=
  match ms with
  | [] => fun _ => []
  | m :: ms' => alt m (alts ms')
  end.

(** Greedy [[class]+]: the longest run first, then ever shorter ones. *)
Fixpoint plus (p : unit16 -> bool) (s : jsstring) : list outcome :=
  match s with
  | c :: t =>
      if p c
      then map (then_ (Outcome [c] t None)) (plus p t) ++ [Outcome [c] t None]
      else []
  | [] => []
  end.

(** Negative lookahead [(?!m)]: consumes nothing, captures nothing. *)
Definition neglook (m : matcher) : matcher := fun s =>
  match m s with
  | [] => [Outcome [] s None]
  | _ :: _ => []
  end.

(** Capture group 1: [(m)]. *)
Definition group (m : matcher) : matcher := fun s =>
  map (fun o => Outcome (matched o) (rest o) (Some (matched o))) (m s).

(** [$] without the [m] flag: the end of the input. *)
Definition eos : matcher := fun s =>
  match s with
  | [] => [Outcome [] [] None]
  | _ :: _ => []
  end.

(** *** The [i] flag

    Without the [u] flag a character is canonicalised by upper-casing it, and
    a code unit of 128 or more is never mapped to one below 128. Every
    pattern character and class of the source is ASCII, so two characters
    agree under [i] exactly when they are the same ASCII letter in either
    case, or equal. *)
Definition fold_case (c : unit16) : unit16 :=
  if (97 <=? c) && (c <=? 122) then c - 32 else c.

Definition unfold_case (c : unit16) : unit16 :=
  if (65 <=? c) && (c <=? 90) then c + 32 else c.

Definition same_letter (a c : unit16) : bool := fold_case a =? fold_case c.

Definition chr_i (a : ascii) : matcher := cls (same_letter (ch a)).

(** An ASCII class under [i]: some member canonicalises like the input. *)
Definition class_i (p : unit16 -> bool) (c : unit16) : bool :=
  p c || p (fold_case c) || p (unfold_case c).

(** A literal word under [i]. *)
Fixpoint lit_i (w : list ascii) : matcher :=
  match w with
  | [] => fun s => [Outcome [] s None]
  | a :: w' => seq (chr_i a) (lit_i w')
  end.

Definition word_i (w : string) : matcher := lit_i (list_ascii_of_string w).

(** *** Replacement templates: literal text and [$1]. *)
Inductive piece := Text (s : string) | Group1.

Definition expand (tpl : list piece) (o : outcome) : jsstring :=
  flat_map (fun p => match p with
                     | Text s => js s
                     | Group1 => match group1 o with Some g => g | None => [] end
                     end) tpl.

(** *** [regex.test(s)]: is there a match at some position? A fresh regular
    expression starts at [lastIndex = 0]; [replace] resets [lastIndex] of a
    global one, so the [test] before it leaves no trace. *)
Fixpoint test (m : matcher) (s : jsstring) : bool :=
  match m s with
  | _ :: _ => true
  | [] => match s with
          | [] => false
          | _ :: t => test m t
          end
  end.

(** *** [s.replace(regex, tpl)] without the [g] flag: the leftmost match. *)
Fixpoint replace (m : matcher) (tpl : list piece) (s : jsstring) : jsstring :=
  match m s with
  | o :: _ => expand tpl o ++ rest o
  | [] => match s with
          | [] => []
          | c :: t => c :: replace m tpl t
          end
  end.

(** *** [s.replace(regex, tpl)] with the [g] flag: every match, left to right,
    each search resuming where the previous match ended (one unit further
    after an empty match). [skip] counts the units of the current match still
    to be passed over. *)
Fixpoint replace_from (m : matcher) (tpl : list piece) (skip : nat)
    (s : jsstring) {struct s} : jsstring :=
  match skip with
  | S k => match s with
           | [] => []
           | _ :: t => replace_from m tpl k t
           end
  | O =>
      match m s with
      | o :: _ =>
          expand tpl o ++
          match s with
          | [] => []
          | c :: t =>
              match List.length (matched o) with
              | O => c :: replace_from m tpl 0 t
              | S k => replace_from m tpl k t
              end
          end
      | [] => match s with
              | [] => []
              | c :: t => c :: replace_from m tpl 0 t
              end
      end
  end.

Definition replace_g (m : matcher) (tpl : list piece) (s : jsstring) : jsstring :=
  replace_from m tpl 0 s.

(** [s.replace(/^.../, tpl)]: a pattern anchored by [^] (no [m] flag) can
    only match at the start of the input. *)
Definition replace_at_start (m : matcher) (tpl : list piece) (s : jsstring) : jsstring :=
  match m s with
  | o :: _ => expand tpl o ++ rest o
  | [] => s
  end.

End RegExp.
Import RegExp.

(** ** types.ts *)

Record RepairResult := {
  fixedContent : jsstring;
  isValid : bool;
  errors : list jsstring;
  wasModified : bool
}.

(** The shape [validateXML] returns. *)
Module Validation.
Record outcome := { isValid : bool; errors : list jsstring }.
End Validation.

(** ** services/repairService.ts *)

(** The browser's XML parser, as far as [validateXML] looks at it:
    [parseFromString(xml, "application/xml")] followed by
    [querySelector("parsererror")] gives no node ([None]) or an error node,
    of which only [textContent] (a string or [null]) is read. The platform's
    [parseFromString] reports malformed input in the document it returns. *)
Record DOMParser := {
  parsererror : jsstring -> option (option jsstring)
}.

(** [x || dflt] on a possibly-null string: [null] and the empty string are falsy. *)
Definition or_else (x : option jsstring) (dflt : jsstring) : jsstring :=
  match x with
  | Some (c :: t) => c :: t
  | _ => dflt
  end.

Definition validateXML (parser : DOMParser) (xml : jsstring) : Validation.outcome :=
  let errorNode := parsererror parser xml in
  match errorNode with
  | Some textContent =>
      {| Validation.isValid := false;
         Validation.errors := [or_else textContent (js "Unknown XML parsing error")] |}
  | None => {| Validation.isValid := true; Validation.errors := [] |}
  end.

(** [/[\x00-\x08\x0B\x0C\x0E-\x1F]/g] *)
Definition illegalChar (c : unit16) : bool :=
  ((0 <=? c) && (c <=? 8)) || (c =? 11) || (c =? 12) || ((14 <=? c) && (c <=? 31)).

Definition illegalCharRegex : matcher := cls illegalChar.

(** [\d] *)
Definition digit (c : unit16) : bool := (48 <=? c) && (c <=? 57).

(** [[a-f\d]] *)
Definition hexClass (c : unit16) : bool := ((97 <=? c) && (c <=? 102)) || digit c.

(** [/&(?!(?:amp|lt|gt|apos|quot|#\d+|#x[a-f\d]+);)/gi] *)
Definition entityLookahead : matcher :=
  seq (alts [ word_i "amp"; word_i "lt"; word_i "gt"; word_i "apos"; word_i "quot";
              seq (chr_i "#") (plus (class_i digit));
              seq (chr_i "#") (seq (chr_i "x") (plus (class_i hexClass))) ])
      (chr_i ";").

Definition unescapedAmpRegex : matcher := seq (chr_i "&") (neglook entityLookahead).

(** [\s]: the WhiteSpace and LineTerminator code points of ECMAScript. *)
Definition whiteSpace (c : unit16) : bool :=
  ((9 <=? c) && (c <=? 13)) || (c =? 32) || (c =? 160) || (c =? 5760) ||
  ((8192 <=? c) && (c <=? 8202)) || (c =? 8232) || (c =? 8233) || (c =? 8239) ||
  (c =? 8287) || (c =? 12288) || (c =? 65279).

(** [/<(\s)/g] *)
Definition unescapedLtRegex : matcher := seq (chr "<") (group (cls whiteSpace)).

(** [[a-zA-Z0-9-_]] *)
Definition nameChar (c : unit16) : bool :=
  ((97 <=? c) && (c <=? 122)) || ((65 <=? c) && (c <=? 90)) || digit c ||
  (c =? ch "-") || (c =? ch "_").

(** [/<\/([a-zA-Z0-9-_]+)$/] *)
Definition malformedClosingRegex : matcher :=
  seq (chr "<") (seq (chr "/") (seq (group (plus nameChar)) eos)).

(** The four fixes, in the order [heuristicRepair] applies them. *)

(** 1. Remove illegal control characters (low ASCII, except Tab, LF, CR). *)
Definition removeIllegalChars (content : jsstring) : jsstring :=
  if test illegalCharRegex content
  then replace_g illegalCharRegex [] content
  else content.

(** 2. Fix unescaped ampersands. *)
Definition fixUnescapedAmp (content : jsstring) : jsstring :=
  if test unescapedAmpRegex content
  then replace_g unescapedAmpRegex [Text "&amp;"] content
  else content.

(** 3. Fix [<] followed by white space. *)
Definition fixUnescapedLt (content : jsstring) : jsstring :=
  if test unescapedLtRegex content
  then replace_g unescapedLtRegex [Text "&lt;"; Group1] content
  else content.

(** 4. Fix a closing tag broken by truncation. *)
Definition fixMalformedClosing (content : jsstring) : jsstring :=
  if test malformedClosingRegex content
  then replace malformedClosingRegex [Text "</"; Group1; Text ">"] content
  else content.

Definition heuristicRepair (parser : DOMParser) (rawContent : jsstring) : RepairResult :=
  let content := rawContent in
  let original := rawContent in
  let content := removeIllegalChars content in
  let content := fixUnescapedAmp content in
  let content := fixUnescapedLt content in
  let content := fixMalformedClosing content in
  (* Check modification status *)
  let wasModified := negb (str_eqb content original) in
  (* Validate *)
  let validation := validateXML parser content in
  {| fixedContent := content;
     isValid := Validation.isValid validation;
     errors := Validation.errors validation;
     wasModified := wasModified |}.

(** ** services/geminiService.ts *)

(** What awaiting a promise gives: its value, or a thrown [Error] with its
    message. *)
Inductive settled (A : Type) : Type :=
| Fulfilled (value : A)
| Rejected (message : jsstring).
Arguments Fulfilled {A} value.
Arguments Rejected {A} message.

Record GenerateContentParameters := {
  model : string;
  role : string;
  text : jsstring;
  systemInstruction : string;
  temperature : N * N  (* numerator, denominator *)
}.

(** [await ai.models.generateContent(...)]: a response, whose [text] may be
    undefined, or an exception object (the SDK throws [Error]s), whose
    [message] may be missing. A rejection with [null] or [undefined], on
    which the [catch] block's own [error.message] would throw, is outside
    this model. *)
Inductive generated :=
| Response (text : option jsstring)
| Failure (message : option jsstring).

Record GoogleGenAI := {
  generateContent : GenerateContentParameters -> generated
}.

(** [process.env] *)
Record ProcessEnv := { API_KEY : option jsstring }.

Definition modelId : string := "gemini-2.5-flash".

Definition systemInstructionText : string :=
"You are an expert in XML and XLIFF localization file formats. 
  Your task is to repair a corrupted XLIFF file. 
  
  RULES:
  1. Return ONLY the valid, repaired XML content. Do not include markdown code blocks (e.g., ```xml).
  2. Fix encoding issues, unescaped entities (like &), and close any missing tags.
  3. Do not translate or change the translatable content text, only fix the structure.
  4. If the file is truncated, attempt to close the necessary tags to make it well-formed.".

(** A literal word (no [i] flag). *)
Fixpoint lit (w : jsstring) : matcher :=
  match w with
  | [] => fun s => [Outcome [] s None]
  | c :: w' => seq (cls (N.eqb c)) (lit w')
  end.

Definition backticks : jsstring := [96; 96; 96].

(** [/^```xml\n/], [/^```\n/] (without their [^]) and [/\n```$/] *)
Definition fenceXmlOpen : matcher := lit (backticks ++ js "xml" ++ [10]).
Definition fenceOpen : matcher := lit (backticks ++ [10]).
Definition fenceCloseRegex : matcher := seq (lit (10 :: backticks)) eos.

Definition repairWithGemini (parser : DOMParser) (env : ProcessEnv)
    (newGoogleGenAI : jsstring -> GoogleGenAI) (brokenContent : jsstring)
    : settled RepairResult :=
  match API_KEY env with
  | None | Some [] => Rejected (js "API Key not found. Please select a key.")
  | Some apiKey =>
      let ai := newGoogleGenAI apiKey in
      match generateContent ai
              {| model := modelId;
                 role := "user";
                 text := js "Here is the broken XLIFF content:" ++ [10; 10] ++ brokenContent;
                 systemInstruction := systemInstructionText;
                 temperature := (1, 10) |} with
      | Response text =>
          let fixedContent := or_else text [] in
          (* Clean up if the model adds markdown despite instructions *)
          let fixedContent :=
            replace fenceCloseRegex []
              (replace_at_start fenceOpen []
                 (replace_at_start fenceXmlOpen [] fixedContent)) in
          let validation := validateXML parser fixedContent in
          Fulfilled {| fixedContent := fixedContent;
                       isValid := Validation.isValid validation;
                       errors := Validation.errors validation;
                       wasModified := true |}
      | Failure message => Rejected (or_else message (js "Failed to repair with AI"))
      end
  end.

(** ** Specification-side vocabulary *)

(** A stand-in for the browser's parser in examples: it reports no error on
    the documents of [accepted] and an error node with text [msg] on every
    other input. *)
Definition parser_accepting (accepted : list jsstring) (msg : option jsstring) : DOMParser :=
  {| parsererror := fun xml =>
       if existsb (str_eqb xml) accepted then None else Some msg |}.

(** The names of the five predefined entities. *)
Definition entityNames : list string := ["amp"; "lt"; "gt"; "apos"; "quot"]%string.

(** A hexadecimal digit, in either case. *)
Definition hexDigit (c : unit16) : bool :=
  digit c || ((97 <=? c) && (c <=? 102)) || ((65 <=? c) && (c <=? 70)).

(** [w] spelt in any mix of upper and lower case. *)
Definition spelt (w t : jsstring) : Prop :=
  Forall2 (fun a c => same_letter a c = true) w t.

(** What follows the [&] of a recognised entity reference: [amp;], [lt;],
    [gt;], [apos;], [quot;], [#<digits>;] or [#x<hex digits>;], letters in
    either case. *)
Inductive entity_tail : jsstring -> Prop :=
| tail_named n t :
    In n entityNames -> spelt (js n) t -> entity_tail (t ++ js ";")
| tail_decimal ds :
    ds <> [] -> Forall (fun c => digit c = true) ds ->
    entity_tail (ch "#" :: ds ++ js ";")
| tail_hex x ds :
    spelt (js "x") [x] -> ds <> [] -> Forall (fun c => hexDigit c = true) ds ->
    entity_tail (ch "#" :: x :: ds ++ js ";").

(** The text [s] (what follows an [&]) begins with such a tail. *)
Definition starts_entity (s : jsstring) : Prop :=
  exists t r, entity_tail t /\ s = t ++ r.

(** Fix 2 as the specification words it: every [&] that does not start a
    recognised entity reference becomes [&amp;]; every other [&], and every
    other character, stays. *)
Inductive spec_amp_escaped : jsstring -> jsstring -> Prop :=
| amp_done : spec_amp_escaped [] []
| amp_bare t t' :
    ~ starts_entity t -> spec_amp_escaped t t' ->
    spec_amp_escaped (ch "&" :: t) (js "&amp;" ++ t')
| amp_entity t t' :
    starts_entity t -> spec_amp_escaped t t' ->
    spec_amp_escaped (ch "&" :: t) (ch "&" :: t')
| amp_other c t t' :
    c <> ch "&" -> spec_amp_escaped t t' -> spec_amp_escaped (c :: t) (c :: t').

(** The recognised set read with exact letters (lower-case names and [x]),
    only the hexadecimal digits in either case. *)
Fixpoint prefixb (w s : jsstring) : bool :=
  match w, s with
  | [], _ => true
  | a :: w', c :: s' => (a =? c) && prefixb w' s'
  | _ :: _, [] => false
  end.

Fixpoint run_then_semicolon (p : unit16 -> bool) (s : jsstring) : bool :=
  match s with
  | c :: t => p c && (run_then_semicolon p t || prefixb (js ";") t)
  | [] => false
  end.

Definition starts_entity_exact (s : jsstring) : bool :=
  existsb (fun n => prefixb (js n ++ js ";") s) entityNames ||
  match s with
  | c :: t =>
      (c =? ch "#") &&
      (run_then_semicolon digit t ||
       match t with
       | x :: u => (x =? ch "x") && run_then_semicolon hexDigit u
       | [] => false
       end)
  | [] => false
  end.

(** Does the lookahead of [unescapedAmpRegex] find an entity tail at [s]? *)
Definition lookahead_hits (s : jsstring) : bool :=
  match entityLookahead s with
  | [] => false
  | _ :: _ => true
  end.

(** Fix 2 as a function. *)
Fixpoint escapeAmp (s : jsstring) : jsstring :=
  match s with
  | [] => []
  | c :: t =>
      if (c =? ch "&") && negb (lookahead_hits t)
      then js "&amp;" ++ escapeAmp t
      else c :: escapeAmp t
  end.

(** No [&] of [s] is left without an entity tail. *)
Definition amps_escaped (s : jsstring) : Prop :=
  forall p q, s = p ++ ch "&" :: q -> starts_entity q.

(** Fix 3 as the specification words it: every [<] directly followed by a
    white-space character becomes [&lt;] (the white space stays, as does
    everything else). *)
Definition wsAhead (s : jsstring) : bool :=
  match s with
  | w :: _ => whiteSpace w
  | [] => false
  end.

Fixpoint spec_escapeLt (s : jsstring) : jsstring :=
  match s with
  | [] => []
  | c :: t =>
      if (c =? ch "<") && wsAhead t
      then js "&lt;" ++ spec_escapeLt t
      else c :: spec_escapeLt t
  end.

(** No [<] of [s] is directly followed by white space. *)
Fixpoint lts_escaped (s : jsstring) : bool :=
  match s with
  | [] => true
  | c :: t => negb ((c =? ch "<") && wsAhead t) && lts_escaped t
  end.

(** Fix 4 as the specification words it: the text ends with [</name], a
    non-empty run of name characters after [</] reaching the end. *)
Definition ends_with_partial_closing_tag (s : jsstring) : Prop :=
  exists p name,
    s = p ++ js "</" ++ name /\ name <> [] /\ Forall (fun c => nameChar c = true) name.

Definition is_nil (s : jsstring) : bool :=
  match s with [] => true | _ :: _ => false end.

(** [t], the text after a [<], is [/name] up to the end. *)
Definition closingTail (t : jsstring) : bool :=
  match t with
  | c :: n => (c =? ch "/") && negb (is_nil n) && forallb nameChar n
  | [] => false
  end.

Fixpoint endsPartial (s : jsstring) : bool :=
  match s with
  | [] => false
  | c :: t => ((c =? ch "<") && closingTail t) || endsPartial t
  end.

Definition closeTag (s : jsstring) : jsstring :=
  if endsPartial s then s ++ js ">" else s.

(** Tab, line feed and carriage return. *)
Definition tabLfCr (c : unit16) : bool := (c =? 9) || (c =? 10) || (c =? 13).

Definition legal (c : unit16) : bool := negb (illegalChar c).

(** [m], started on [s], can consume [a] and leave [u]. *)
Definition takes (m : matcher) (s a u : jsstring) : Prop :=
  exists o, In o (m s) /\ matched o = a /\ rest o = u.

Ltac cmp_cases :=
  repeat match goal with
         | |- context [N.leb ?a ?b] => destruct (N.leb_spec a b)
         | |- context [N.eqb ?a ?b] => destruct (N.eqb_spec a b)
         | H : context [N.leb ?a ?b] |- _ => destruct (N.leb_spec a b)
         | H : context [N.eqb ?a ?b] |- _ => destruct (N.eqb_spec a b)
         end;
  cbn in *; try reflexivity; try discriminate; try lia.

(** An entity tail holds neither [&] nor [<]. *)
Definition plain (c : unit16) : Prop := c <> ch "&" /\ c <> ch "<".

(** ** Inputs and collaborators used in examples *)

(** Fix 2 with the recognised set read with exact letters. *)
Fixpoint escapeAmp_exact (s : jsstring) : jsstring :=
  match s with
  | [] => []
  | c :: t =>
      if (c =? ch "&") && negb (starts_entity_exact t)
      then js "&amp;" ++ escapeAmp_exact t
      else c :: escapeAmp_exact t
  end.

(** A well-formed document whose character data sits in a CDATA section. *)
Definition cdataDoc : jsstring := js "<a><![CDATA[A & B]]></a>".

(** A well-formed document in which none of the four patterns occurs. *)
Definition plainDoc : jsstring := js "<a>A &amp; B &lt; C</a>".

Definition strictParser : DOMParser :=
  parser_accepting [cdataDoc; plainDoc; js "<a/>"] (Some (js "error on line 1")).

(** A stand-in for the parser on a well-formed document that itself holds
    an element named [parsererror]: [querySelector] finds that element. *)
Definition parsererrorDoc : jsstring := js "<parsererror>boom</parsererror>".

Definition elementParser : DOMParser :=
  {| parsererror := fun xml =>
       if str_eqb xml parsererrorDoc then Some (Some (js "boom")) else None |}.

Definition noKey : ProcessEnv := {| API_KEY := None |}.
Definition someKey : ProcessEnv := {| API_KEY := Some (js "k") |}.

(** A model endpoint that always answers with a fenced [<a/>]. *)
Definition fencedAnswer : jsstring -> GoogleGenAI := fun _ =>
  {| generateContent := fun _ =>
       Response (Some (backticks ++ js "xml" ++ [10] ++ js "<a/>" ++ [10] ++ backticks)) |}.

(** ** constants.ts *)

Definition MAX_FILE_SIZE : N := 5 * 1024 * 1024. (* 5MB *)
Definition ALLOWED_EXTENSIONS : list jsstring := [js ".xlf"; js ".xliff"; js ".xml"].

(** ** The string and number methods App.tsx calls *)

(** [s.split(sep)] for a one-character separator: always at least one piece. *)
Fixpoint split (sep : unit16) (s : jsstring) : list jsstring :=
  match s with
  | [] => [[]]
  | c :: t =>
      if c =? sep then [] :: split sep t
      else match split sep t with
           | piece :: pieces => (c :: piece) :: pieces
           | [] => [[c]]
           end
  end.

(** [a.pop()]: the last element, [undefined] on an empty array. *)
Fixpoint pop (a : list jsstring) : option jsstring :=
  match a with
  | [] => None
  | [x] => Some x
  | _ :: a' => pop a'
  end.

(** [a.includes(x)] *)
Definition includes (a : list jsstring) (x : jsstring) : bool := existsb (str_eqb x) a.

(** [a.join(sep)] *)
Fixpoint join (sep : jsstring) (a : list jsstring) : jsstring :=
  match a with
  | [] => []
  | [x] => x
  | x :: a' => x ++ sep ++ join sep a'
  end.

(** [(size / 2^k).toFixed(f)] for a byte count [size] (an integer below
    2^53, so the quotient is an exact double): the integer [n] nearest to
    [size / 2^k * 10^f], the larger one on a tie, printed with [f] decimals. *)
Definition toFixed (size k : N) (f : nat) : jsstring :=
  let n := (2 * size * 10 ^ N.of_nat f + 2 ^ k) / 2 ^ (k + 1) in
  let m := js (NilZero.string_of_uint (N.to_uint n)) in
  match f with
  | O => m
  | S _ =>
      let m := repeat (ch "0") (S f - List.length m) ++ m in
      let k' := List.length m in
      firstn (k' - f) m ++ js "." ++ skipn (k' - f) m
  end.

(** ** types.ts and App.tsx: the component's state and its handlers

    A handler is modelled by the state updates it issues, in the order it
    issues them ([setX(v)] and [setLogs(prev => ...)] calls); React applies
    them in that order to the state current at the time. What the handler
    reads from its closure ([file]) is an argument. *)

Module App.

Inductive LogLevel := INFO | SUCCESS | WARNING | ERROR.

Record LogEntry := {
  id : jsstring;
  timestamp : N;
  message : jsstring;
  level : LogLevel
}.

Record FileData := {
  name : jsstring;
  content : jsstring;
  size : N
}.

(** The browser's [File] object, as far as [handleFileRead] reads it. *)
Module File.
Record t := { name : jsstring; size : N }.
End File.

Record State := {
  file : option FileData;
  result : option RepairResult;
  logs : list LogEntry;
  isProcessing : bool;
  dragActive : bool;
  showApiKeyModal : bool
}.

Definition update := State -> State.

Definition setFile (v : option FileData) : update := fun st =>
  {| file := v; result := result st; logs := logs st;
     isProcessing := isProcessing st; dragActive := dragActive st;
     showApiKeyModal := showApiKeyModal st |}.

Definition setResult (v : option RepairResult) : update := fun st =>
  {| file := file st; result := v; logs := logs st;
     isProcessing := isProcessing st; dragActive := dragActive st;
     showApiKeyModal := showApiKeyModal st |}.

(** [setLogs(f)] with an updater function; [setLogs(v)] is [setLogs (fun _ => v)]. *)
Definition setLogs (f : list LogEntry -> list LogEntry) : update := fun st =>
  {| file := file st; result := result st; logs := f (logs st);
     isProcessing := isProcessing st; dragActive := dragActive st;
     showApiKeyModal := showApiKeyModal st |}.

Definition setIsProcessing (v : bool) : update := fun st =>
  {| file := file st; result := result st; logs := logs st;
     isProcessing := v; dragActive := dragActive st;
     showApiKeyModal := showApiKeyModal st |}.

(** The updates of a handler applied one after the other. *)
Definition run (us : list update) (st : State) : State :=
  fold_left (fun s u => u s) us st.

(** What one [addLog] call draws from the platform:
    [Math.random().toString(36).substr(2, 9)] and [new Date()]. *)
Record Stamp := { randomId : jsstring; now : N }.

Definition addLog (stamp : Stamp) (message : jsstring) (level : LogLevel) : update :=
  setLogs (fun prev =>
    prev ++ [{| id := randomId stamp; timestamp := now stamp;
                message := message; level := level |}]).

(** How [reader.readAsText(fileObj)] ends: [onload] with the text, or [onerror]. *)
Inductive readOutcome := Loaded (text : jsstring) | ReadFailed.

(** ['.' + fileObj.name.split('.').pop()?.toLowerCase()]; [toLowerCase] is
    the platform's. *)
Definition extensionOf (toLowerCase : jsstring -> jsstring) (fileName : jsstring) : jsstring :=
  js "." ++
  match pop (split (ch ".") fileName) with
  | Some piece => toLowerCase piece
  | None => js "undefined"
  end.

Definition handleFileRead (toLowerCase : jsstring -> jsstring)
    (fileObj : File.t) (read : readOutcome) (stamp : Stamp) : list update :=
  if MAX_FILE_SIZE <? File.size fileObj then
    [addLog stamp
       (js "File too large: " ++ toFixed (File.size fileObj) 20 2 ++ js "MB. Max is 5MB.")
       ERROR]
  else
    let ext := extensionOf toLowerCase (File.name fileObj) in
    if negb (includes ALLOWED_EXTENSIONS ext) then
      [addLog stamp
         (js "Invalid file type: " ++ ext ++ js ". Allowed: " ++
          join (js ", ") ALLOWED_EXTENSIONS)
         ERROR]
    else
      match read with
      | Loaded text =>
          [setFile (Some {| name := File.name fileObj;
                            size := File.size fileObj;
                            content := text |});
           setResult None;
           setLogs (fun _ => []); (* Clear logs on new file *)
           addLog stamp
             (js "File loaded: " ++ File.name fileObj ++ js " (" ++
              toFixed (File.size fileObj) 10 1 ++ js "KB)")
             INFO]
      | ReadFailed => [addLog stamp (js "Failed to read file.") ERROR]
      end.

(** [`${errors[0]}`]: an absent element prints as [undefined]. *)
Definition firstError (errs : list jsstring) : jsstring :=
  match errs with
  | e :: _ => e
  | [] => js "undefined"
  end.

(** The updates of [runHeuristicRepair]: those of the click, then those of
    the function it hands to [setTimeout]. *)
Definition runHeuristicRepair (parser : DOMParser) (file : option FileData)
    (s0 s1 s2 s3 : Stamp) : list update :=
  match file with
  | None => []
  | Some file =>
      [setIsProcessing true;
       addLog s0 (js "Starting heuristic repair...") INFO] ++
      (* Simulate steps for UX *)
      let repair := heuristicRepair parser (content file) in
      [addLog s1 (js "Scanning for illegal control characters...") INFO;
       if wasModified repair
       then addLog s2 (js "Modifications applied to file structure.") SUCCESS
       else addLog s2
              (js "No heuristic patterns matched. File might be intact or have complex issues.")
              WARNING;
       if isValid repair
       then addLog s3 (js "XML Validation Passed.") SUCCESS
       else addLog s3 (js "XML Validation Failed: " ++ firstError (errors repair)) ERROR;
       setResult (Some repair);
       setIsProcessing false]
  end.

(** The updates of [runGeminiRepair]. Its API-key pre-check only talks to
    [window.aistudio] and swallows what that throws: it issues no update. *)
Definition runGeminiRepair (parser : DOMParser) (env : ProcessEnv)
    (newGoogleGenAI : jsstring -> GoogleGenAI) (file : option FileData)
    (s0 s1 s2 : Stamp) : list update :=
  match file with
  | None => []
  | Some file =>
      [setIsProcessing true;
       addLog s0 (js "Initializing AI Repair Agent (Gemini 2.5)...") INFO] ++
      match repairWithGemini parser env newGoogleGenAI (content file) with
      | Fulfilled repair =>
          [addLog s1 (js "AI Reconstruction complete.") SUCCESS;
           if isValid repair
           then addLog s2 (js "AI Output Validated Successfully.") SUCCESS
           else addLog s2
                  (js "AI Output Validation Warning: " ++ firstError (errors repair))
                  WARNING;
           setResult (Some repair)]
      | Rejected message =>
          [addLog s1 (js "AI Repair Failed: " ++ message) ERROR;
           addLog s2 (js "Tip: Ensure you have selected a valid API Key.") INFO]
      end ++
      [setIsProcessing false]
  end.

End App.

(** ** Vocabulary for the further properties *)

(** The request [repairWithGemini] sends for [brokenContent]. *)
Definition requestFor (brokenContent : jsstring) : GenerateContentParameters :=
  {| model := modelId;
     role := "user";
     text := js "Here is the broken XLIFF content:" ++ [10; 10] ++ brokenContent;
     systemInstruction := systemInstructionText;
     temperature := (1, 10) |}.

(** The three replacements [repairWithGemini] runs on the model's answer. *)
Definition stripFences (answer : jsstring) : jsstring :=
  replace fenceCloseRegex []
    (replace_at_start fenceOpen []
       (replace_at_start fenceXmlOpen [] answer)).

(** [s] without a leading [w], if it starts with [w]. *)
Fixpoint strip_prefix (w s : jsstring) : option jsstring :=
  match w, s with
  | [], _ => Some s
  | a :: w', c :: s' => if a =? c then strip_prefix w' s' else None
  | _ :: _, [] => None
  end.

Definition fenceXmlText : jsstring := backticks ++ js "xml" ++ [10].
Definition fenceText : jsstring := backticks ++ [10].
Definition fenceCloseText : jsstring := 10 :: backticks.

(** The invariant of a [RepairResult]: valid with no error, or invalid with
    exactly one, non-empty, error message. *)
Definition coherent (r : RepairResult) : Prop :=
  (isValid r = true /\ errors r = []) \/
  (isValid r = false /\ exists e, errors r = [e] /\ e <> []).

(** ASCII lower-casing, the part of [toLowerCase] the examples need. *)
Definition asciiLower (s : jsstring) : jsstring := map unfold_case s.

Definition stampA : App.Stamp := {| App.randomId := js "k3j9x0q1z"; App.now := 1700000000000 |}.

Definition emptyState : App.State :=
  {| App.file := None; App.result := None; App.logs := [];
     App.isProcessing := false; App.dragActive := false;
     App.showApiKeyModal := false |}.


(** * Facts about the matching engine *)

Section Replacing.
Variables (m : matcher) (tpl : list piece).

Lemma test_false_here s : test m s = false -> m s = [].
Proof.
  destruct s; simpl; destruct (m _); auto; discriminate.
Qed.

Lemma test_false_tail c s : test m (c :: s) = false -> test m s = false.
Proof.
  simpl. destruct (m (c :: s)); auto; discriminate.
Qed.

Lemma replace_from_no_match s : test m s = false -> replace_from m tpl 0 s = s.
Proof.
  induction s as [|c s IH]; intros H.
  - simpl. now rewrite (test_false_here _ H).
  - simpl. rewrite (test_false_here _ H). f_equal. apply IH.
    now apply test_false_tail with c.
Qed.

Lemma replace_no_match s : test m s = false -> replace m tpl s = s.
Proof.
  induction s as [|c s IH]; intros H.
  - simpl. now rewrite (test_false_here _ H).
  - simpl. rewrite (test_false_here _ H). f_equal. apply IH.
    now apply test_false_tail with c.
Qed.

Lemma replace_from_here c t :
  replace_from m tpl 0 (c :: t) =
  match m (c :: t) with
  | o :: _ =>
      expand tpl o ++
      match List.length (matched o) with
      | O => c :: replace_from m tpl 0 t
      | S k => replace_from m tpl k t
      end
  | [] => c :: replace_from m tpl 0 t
  end.
Proof. reflexivity. Qed.

Lemma replace_from_skip k c t :
  replace_from m tpl (S k) (c :: t) = replace_from m tpl k t.
Proof. reflexivity. Qed.

(** The [if (regex.test(content))] around each replacement changes nothing. *)
Lemma guarded_replace_g s :
  (if test m s then replace_g m tpl s else s) = replace_g m tpl s.
Proof.
  destruct (test m s) eqn:H; [reflexivity|].
  symmetry. now apply replace_from_no_match.
Qed.

Lemma guarded_replace s :
  (if test m s then replace m tpl s else s) = replace m tpl s.
Proof.
  destruct (test m s) eqn:H; [reflexivity|].
  symmetry. now apply replace_no_match.
Qed.

End Replacing.

(** Outcomes of a greedy run followed by something that needs the end of the
    input: only the run that reaches the end survives. *)
Lemma plus_to_end p : forall n (k : outcome -> list outcome),
  (forall o, rest o <> [] -> k o = []) ->
  flat_map k (plus p n) =
  if negb (is_nil n) && forallb p n then k (Outcome n [] None) else [].
Proof.
  induction n as [|c t IH]; intros k Hk; [reflexivity|].
  simpl. destruct (p c); [|reflexivity]. simpl.
  rewrite flat_map_app. simpl. rewrite app_nil_r.
  assert (E : forall l, flat_map k (map (then_ (Outcome [c] t None)) l) =
                        flat_map (fun o => k (then_ (Outcome [c] t None) o)) l).
  { induction l as [|o l IHl]; simpl; [reflexivity|]. now rewrite IHl. }
  rewrite E, IH by (intros o Ho; apply Hk; exact Ho).
  destruct t as [|d t]; simpl.
  - reflexivity.
  - rewrite (Hk (Outcome [c] (d :: t) None)) by discriminate.
    rewrite app_nil_r. destruct (p d && forallb p t); reflexivity.
Qed.

(** * The four fixes, characterised *)

(** ** Fix 1 *)

Lemma removeIllegalChars_filter s : removeIllegalChars s = filter legal s.
Proof.
  unfold removeIllegalChars. rewrite guarded_replace_g. unfold replace_g.
  induction s as [|c s IH]; [reflexivity|].
  simpl. unfold legal at 1. destruct (illegalChar c); simpl; now rewrite IH.
Qed.

(** ** Fix 3 *)

Lemma whiteSpace_not_lt w : whiteSpace w = true -> (w =? ch "<") = false.
Proof.
  intros H. apply N.eqb_neq. intros ->. discriminate.
Qed.

Lemma unescapedLtRegex_at c t :
  unescapedLtRegex (c :: t) =
  if (c =? ch "<") && wsAhead t
  then match t with
       | w :: t' => [Outcome [c; w] t' (Some [w])]
       | [] => []
       end
  else [].
Proof.
  unfold unescapedLtRegex, seq, chr, group, cls. rewrite (N.eqb_sym c).
  destruct (ch "<" =? c); simpl; [|reflexivity].
  destruct t as [|w t]; simpl; [reflexivity|].
  destruct (whiteSpace w); reflexivity.
Qed.

Lemma fixUnescapedLt_escapeLt s : fixUnescapedLt s = spec_escapeLt s.
Proof.
  unfold fixUnescapedLt. rewrite guarded_replace_g. unfold replace_g.
  enough (H : replace_from unescapedLtRegex [Text "&lt;"; Group1] 0 s = spec_escapeLt s /\
              forall c, replace_from unescapedLtRegex [Text "&lt;"; Group1] 0 (c :: s)
                        = spec_escapeLt (c :: s)) by apply H.
  induction s as [|w s [IH0 IH1]].
  - split; [reflexivity|]. intros c.
    rewrite replace_from_here, unescapedLtRegex_at.
    cbn [spec_escapeLt wsAhead]. rewrite andb_false_r. reflexivity.
  - split; [apply IH1|]. intros c.
    rewrite replace_from_here, unescapedLtRegex_at.
    cbn [spec_escapeLt wsAhead].
    destruct ((c =? ch "<") && whiteSpace w) eqn:E.
    + apply andb_prop in E. destruct E as [_ Hw].
      rewrite (whiteSpace_not_lt _ Hw). cbn [andb].
      cbn [matched List.length]. rewrite replace_from_skip, IH0. reflexivity.
    + rewrite IH1. reflexivity.
Qed.

(** ** Fix 4 *)

Lemma flat_map_map_outcome (f : outcome -> list outcome) (g : outcome -> outcome) l :
  flat_map f (map g l) = flat_map (fun o => f (g o)) l.
Proof.
  induction l as [|o l IH]; simpl; [reflexivity|]. now rewrite IH.
Qed.

Lemma name_to_end n :
  seq (group (plus nameChar)) eos n =
  if negb (is_nil n) && forallb nameChar n then [Outcome n [] (Some n)] else [].
Proof.
  unfold seq, group. rewrite flat_map_map_outcome.
  rewrite plus_to_end.
  - destruct (negb (is_nil n) && forallb nameChar n); [|reflexivity].
    simpl. unfold then_. simpl. now rewrite app_nil_r.
  - intros o Ho. simpl. destruct (rest o); [contradiction|reflexivity].
Qed.

Lemma malformedClosingRegex_nil : malformedClosingRegex [] = [].
Proof. reflexivity. Qed.

Lemma seq_cls_cons p k c t :
  seq (cls p) k (c :: t) =
  if p c then map (then_ (Outcome [c] t None)) (k t) else [].
Proof.
  unfold seq, cls. destruct (p c); simpl; [apply app_nil_r|reflexivity].
Qed.

Lemma malformedClosingRegex_at c t :
  malformedClosingRegex (c :: t) =
  if (c =? ch "<") && closingTail t then [Outcome (c :: t) [] (Some (tl t))] else [].
Proof.
  unfold malformedClosingRegex, chr. rewrite seq_cls_cons, (N.eqb_sym c).
  destruct (ch "<" =? c); [|reflexivity].
  destruct t as [|d n]; [reflexivity|].
  rewrite seq_cls_cons. cbn [closingTail]. rewrite (N.eqb_sym d).
  destruct (ch "/" =? d); [|reflexivity].
  rewrite name_to_end. cbn [andb].
  destruct (negb (is_nil n) && forallb nameChar n); reflexivity.
Qed.

Lemma closeTag_cons_miss c t :
  (c =? ch "<") && closingTail t = false -> closeTag (c :: t) = c :: closeTag t.
Proof.
  intros H. unfold closeTag. cbn [endsPartial]. rewrite H. cbn [orb].
  destruct (endsPartial t); reflexivity.
Qed.

Lemma fixMalformedClosing_closeTag s : fixMalformedClosing s = closeTag s.
Proof.
  unfold fixMalformedClosing. rewrite guarded_replace.
  induction s as [|c t IH]; [reflexivity|].
  cbn [replace]. rewrite malformedClosingRegex_at.
  destruct ((c =? ch "<") && closingTail t) eqn:E.
  - unfold closeTag. cbn [endsPartial]. rewrite E. cbn [orb].
    apply andb_prop in E. destruct E as [Hc Ht].
    apply N.eqb_eq in Hc. subst c.
    destruct t as [|d n]; [discriminate|].
    cbn [closingTail] in Ht.
    apply andb_prop in Ht. destruct Ht as [Ht _].
    apply andb_prop in Ht. destruct Ht as [Hd _].
    apply N.eqb_eq in Hd. subst d.
    cbn. now rewrite app_nil_r.
  - rewrite IH. symmetry. now apply closeTag_cons_miss.
Qed.

Lemma forallb_Forall_true (p : unit16 -> bool) l :
  forallb p l = true <-> Forall (fun c => p c = true) l.
Proof.
  rewrite forallb_forall, Forall_forall. reflexivity.
Qed.

Lemma endsPartial_spec s :
  endsPartial s = true <-> ends_with_partial_closing_tag s.
Proof.
  split.
  - induction s as [|c t IH]; [discriminate|].
    cbn [endsPartial]. intros H. apply orb_prop in H. destruct H as [H|H].
    + apply andb_prop in H. destruct H as [Hc Ht]. apply N.eqb_eq in Hc. subst c.
      destruct t as [|d n]; [discriminate|]. cbn [closingTail] in Ht.
      apply andb_prop in Ht. destruct Ht as [Ht Hn].
      apply andb_prop in Ht. destruct Ht as [Hd Hne].
      apply N.eqb_eq in Hd. subst d.
      exists [], n. split; [reflexivity|]. split.
      * now destruct n.
      * now apply forallb_Forall_true.
    + destruct (IH H) as (p & name & -> & Hne & Hall).
      exists (c :: p), name. auto.
  - intros (p & name & -> & Hne & Hall).
    induction p as [|c p IH].
    + cbn. apply forallb_Forall_true in Hall. rewrite Hall.
      destruct name; [contradiction|reflexivity].
    + cbn [app endsPartial]. cbn [app] in IH. rewrite IH. apply orb_true_r.
Qed.

Lemma closingTail_gt t : closingTail (t ++ js ">") = false.
Proof.
  destruct t as [|d n]; [reflexivity|].
  cbn [app closingTail]. rewrite forallb_app.
  change (forallb nameChar (js ">")) with false.
  now rewrite !andb_false_r.
Qed.

Lemma endsPartial_gt s : endsPartial (s ++ js ">") = false.
Proof.
  induction s as [|c t IH]; [reflexivity|].
  cbn [app endsPartial]. now rewrite closingTail_gt, IH, andb_false_r.
Qed.

Lemma closeTag_fixed s : closeTag (closeTag s) = closeTag s.
Proof.
  unfold closeTag. destruct (endsPartial s) eqn:E.
  - now rewrite endsPartial_gt.
  - now rewrite E.
Qed.

(** ** Fix 2: what the lookahead of [unescapedAmpRegex] recognises *)

Lemma same_letter_symbol a c :
  a < 65 \/ (90 < a /\ a < 97) \/ 122 < a ->
  same_letter a c = true <-> c = a.
Proof.
  intros Ha. unfold same_letter, fold_case. split.
  - intros H. cmp_cases.
  - intros ->. apply N.eqb_refl.
Qed.

Lemma class_i_digit c : class_i digit c = digit c.
Proof.
  unfold class_i, digit, fold_case, unfold_case. cmp_cases.
Qed.

Lemma class_i_hexClass c : class_i hexClass c = hexDigit c.
Proof.
  unfold class_i, hexClass, hexDigit, digit, fold_case, unfold_case.
  destruct (N.leb_spec 97 c), (N.leb_spec c 122), (N.leb_spec 65 c), (N.leb_spec c 90);
    cbn [andb]; cmp_cases.
Qed.

Lemma takes_cls p s a u :
  takes (cls p) s a u <-> exists c, p c = true /\ a = [c] /\ s = c :: u.
Proof.
  unfold takes, cls. split.
  - intros (o & Hin & <- & <-). destruct s as [|c t]; [contradiction|].
    destruct (p c) eqn:E; [|contradiction].
    destruct Hin as [<-|[]]. now exists c.
  - intros (c & Hc & -> & ->). rewrite Hc.
    eexists. split; [left; reflexivity|]. now split.
Qed.

Lemma takes_seq m1 m2 s a u :
  takes (seq m1 m2) s a u <->
  exists a1 v a2, takes m1 s a1 v /\ takes m2 v a2 u /\ a = a1 ++ a2.
Proof.
  unfold takes, seq. split.
  - intros (o & Hin & <- & <-).
    apply in_flat_map in Hin. destruct Hin as (o1 & H1 & Hin).
    apply in_map_iff in Hin. destruct Hin as (o2 & <- & H2).
    exists (matched o1), (rest o1), (matched o2).
    split; [now exists o1|]. split; [now exists o2|]. reflexivity.
  - intros (a1 & v & a2 & (o1 & H1 & <- & <-) & (o2 & H2 & <- & <-) & ->).
    exists (then_ o1 o2). split; [|now split].
    apply in_flat_map. exists o1. split; [exact H1|].
    apply in_map. exact H2.
Qed.

Lemma takes_alt m1 m2 s a u :
  takes (alt m1 m2) s a u <-> takes m1 s a u \/ takes m2 s a u.
Proof.
  unfold takes, alt. split.
  - intros (o & Hin & Ha & Hu). apply in_app_or in Hin.
    destruct Hin; [left|right]; now exists o.
  - intros [(o & Hin & Ha & Hu)|(o & Hin & Ha & Hu)]; exists o;
      (split; [apply in_or_app; auto|now split]).
Qed.

Lemma takes_alts ms s a u :
  takes (alts ms) s a u <-> exists m, In m ms /\ takes m s a u.
Proof.
  induction ms as [|m ms IH]; cbn [alts].
  - split; [intros (o & [] & _)|intros (m & [] & _)].
  - rewrite takes_alt, IH. split.
    + intros [H|(m' & Hin & H)]; [exists m|exists m']; split; auto; now (left + right).
    + intros (m' & [<-|Hin] & H); [now left|right; now exists m'].
Qed.

Lemma takes_plus p : forall s a u,
  takes (plus p) s a u <->
  a <> [] /\ Forall (fun c => p c = true) a /\ s = a ++ u.
Proof.
  induction s as [|c t IH]; intros a u.
  - split.
    + intros (o & [] & _).
    + intros (Hne & _ & E). destruct a; [contradiction|discriminate].
  - unfold takes. cbn [plus]. split.
    + intros (o & Hin & <- & <-). destruct (p c) eqn:Hc; [|contradiction].
      apply in_app_or in Hin. destruct Hin as [Hin|[<-|[]]].
      * apply in_map_iff in Hin. destruct Hin as (o' & <- & Hin).
        destruct (proj1 (IH (matched o') (rest o'))) as (Hne & Hall & E);
          [now exists o'|].
        cbn. split; [discriminate|]. split; [now constructor|]. now rewrite E.
      * cbn. split; [discriminate|]. split; [|reflexivity]. now repeat constructor.
    + intros (Hne & Hall & E). destruct a as [|d a]; [contradiction|].
      injection E as <- ->. inversion Hall as [|? ? Hc Hall']; subst.
      rewrite Hc. destruct a as [|e a].
      * eexists. split; [apply in_or_app; right; left; reflexivity|]. now split.
      * destruct (proj2 (IH (e :: a) u)) as (o' & Hin & Ha & Hu);
          [split; [discriminate|now split]|].
        exists (then_ (Outcome [c] ((e :: a) ++ u) None) o').
        split; [apply in_or_app; left; now apply in_map|].
        cbn. now rewrite Ha, Hu.
Qed.

Lemma takes_lit_i w : forall s a u,
  takes (lit_i w) s a u <-> spelt (map ch w) a /\ s = a ++ u.
Proof.
  induction w as [|x w IH]; intros s a u; cbn [lit_i map].
  - unfold takes. split.
    + intros (o & [<-|[]] & <- & <-). split; [constructor|reflexivity].
    + intros (Hs & ->). inversion Hs; subst.
      eexists. split; [left; reflexivity|]. now split.
  - rewrite takes_seq. unfold chr_i. split.
    + intros (a1 & v & a2 & H1 & H2 & ->).
      apply takes_cls in H1. destruct H1 as (c & Hc & -> & ->).
      apply IH in H2. destruct H2 as (Hs & ->).
      split; [now constructor|reflexivity].
    + intros (Hs & ->). inversion Hs as [|? c ? a' Hc Hs']; subst.
      exists [c], (a' ++ u), a'. split; [|split; [|reflexivity]].
      * apply takes_cls. now exists c.
      * apply IH. now split.
Qed.

Lemma takes_word_i w s a u :
  takes (word_i w) s a u <-> spelt (js w) a /\ s = a ++ u.
Proof. apply takes_lit_i. Qed.

Lemma takes_symbol x s a u :
  ch x < 65 \/ (90 < ch x /\ ch x < 97) \/ 122 < ch x ->
  takes (chr_i x) s a u <-> a = [ch x] /\ s = ch x :: u.
Proof.
  intros Hx. unfold chr_i. rewrite takes_cls. split.
  - intros (c & Hc & -> & ->). apply same_letter_symbol in Hc; [|exact Hx].
    now subst.
  - intros (-> & ->). exists (ch x). split; [|now split].
    now apply same_letter_symbol.
Qed.


Lemma Forall_class_i (p q : unit16 -> bool) ds :
  (forall c, class_i p c = q c) ->
  Forall (fun c => class_i p c = true) ds <-> Forall (fun c => q c = true) ds.
Proof.
  intros E. split; intros H; (eapply Forall_impl; [|exact H]);
    intros c; cbv beta; now rewrite E.
Qed.

(** The lookahead consumes exactly an entity tail. *)
Lemma takes_entityLookahead s a u :
  takes entityLookahead s a u <-> entity_tail a /\ s = a ++ u.
Proof.
  unfold entityLookahead. rewrite takes_seq. split.
  - intros (a1 & v & a2 & H1 & H2 & ->).
    apply takes_symbol in H2; [|left; reflexivity]. destruct H2 as (-> & ->).
    apply takes_alts in H1. destruct H1 as (m & Hin & Hm). cbn [In] in Hin.
    destruct Hin as [<-|[<-|[<-|[<-|[<-|[<-|[<-|[]]]]]]]].
    1-5: apply takes_word_i in Hm; destruct Hm as (Hs & ->);
         (split; [eapply tail_named; [|exact Hs]; cbn; auto 10
                 |now rewrite <- app_assoc]).
    + apply takes_seq in Hm. destruct Hm as (b1 & w & b2 & Hh & Hd & ->).
      apply takes_symbol in Hh; [|left; reflexivity]. destruct Hh as (-> & ->).
      apply takes_plus in Hd. destruct Hd as (Hne & Hall & ->).
      apply (Forall_class_i _ _ _ class_i_digit) in Hall.
      split; [now apply tail_decimal|]. cbn. now rewrite <- app_assoc.
    + apply takes_seq in Hm. destruct Hm as (b1 & w & b2 & Hh & Hd & ->).
      apply takes_symbol in Hh; [|left; reflexivity]. destruct Hh as (-> & ->).
      apply takes_seq in Hd. destruct Hd as (c1 & w' & c2 & Hx & Hd & ->).
      apply takes_cls in Hx. destruct Hx as (x & Hx & -> & ->).
      apply takes_plus in Hd. destruct Hd as (Hne & Hall & ->).
      apply (Forall_class_i _ _ _ class_i_hexClass) in Hall.
      split; [|cbn; now rewrite <- app_assoc].
      cbn. apply tail_hex; auto. now repeat constructor.
  - intros (Ht & ->).
    destruct Ht as [n t Hn Hs | ds Hne Hall | x ds Hx Hne Hall];
      cbn [app]; rewrite <- app_assoc.
    + exists t, (js ";" ++ u), (js ";"). split; [|split].
      * apply takes_alts. cbn [entityNames In] in Hn.
        destruct Hn as [<-|[<-|[<-|[<-|[<-|[]]]]]];
          [exists (word_i "amp")|exists (word_i "lt")|exists (word_i "gt")
          |exists (word_i "apos")|exists (word_i "quot")];
          (split; [cbn; auto 10|apply takes_word_i; now split]).
      * apply takes_symbol; [left; reflexivity|]. now split.
      * reflexivity.
    + exists (ch "#" :: ds), (js ";" ++ u), (js ";"). split; [|split].
      * apply takes_alts. eexists. split; [do 5 right; left; reflexivity|].
        apply takes_seq. exists [ch "#"], (ds ++ js ";" ++ u), ds.
        split; [|split; [|reflexivity]].
        -- apply takes_symbol; [left; reflexivity|]. now split.
        -- apply takes_plus. split; [exact Hne|]. split; [|reflexivity].
           now apply (Forall_class_i _ _ _ class_i_digit).
      * apply takes_symbol; [left; reflexivity|]. now split.
      * reflexivity.
    + exists (ch "#" :: x :: ds), (js ";" ++ u), (js ";"). split; [|split].
      * apply takes_alts. eexists. split; [do 6 right; left; reflexivity|].
        apply takes_seq. exists [ch "#"], (x :: ds ++ js ";" ++ u), (x :: ds).
        split; [|split; [|reflexivity]].
        -- apply takes_symbol; [left; reflexivity|]. now split.
        -- apply takes_seq. exists [x], (ds ++ js ";" ++ u), ds.
           split; [|split; [|reflexivity]].
           ++ apply takes_cls. exists x. split; [|now split].
              now inversion Hx.
           ++ apply takes_plus. split; [exact Hne|]. split; [|reflexivity].
              now apply (Forall_class_i _ _ _ class_i_hexClass).
      * apply takes_symbol; [left; reflexivity|]. now split.
      * reflexivity.
Qed.

Lemma lookahead_hits_spec s : lookahead_hits s = true <-> starts_entity s.
Proof.
  unfold lookahead_hits, starts_entity. split.
  - destruct (entityLookahead s) as [|o l] eqn:E; [discriminate|]. intros _.
    exists (matched o), (rest o). apply takes_entityLookahead.
    exists o. rewrite E. split; [now left|now split].
  - intros (t & r & Ht & ->).
    destruct (proj2 (takes_entityLookahead (t ++ r) t r) (conj Ht eq_refl))
      as (o & Hin & _).
    destruct (entityLookahead (t ++ r)); [contradiction|reflexivity].
Qed.

Lemma lookahead_miss_spec s : lookahead_hits s = false <-> ~ starts_entity s.
Proof.
  rewrite <- lookahead_hits_spec. destruct (lookahead_hits s); split; auto.
  - intros H. discriminate.
  - intros H. now contradiction H.
Qed.

Lemma unescapedAmpRegex_at c t :
  unescapedAmpRegex (c :: t) =
  if (c =? ch "&") && negb (lookahead_hits t) then [Outcome [c] t None] else [].
Proof.
  unfold unescapedAmpRegex, chr_i. rewrite seq_cls_cons.
  destruct (same_letter (ch "&") c) eqn:E.
  - apply same_letter_symbol in E; [|left; reflexivity]. subst c.
    rewrite N.eqb_refl. unfold neglook, lookahead_hits.
    destruct (entityLookahead t); reflexivity.
  - destruct (N.eqb_spec c (ch "&")) as [->|Hc]; [|reflexivity].
    discriminate E.
Qed.

Lemma fixUnescapedAmp_escapeAmp s : fixUnescapedAmp s = escapeAmp s.
Proof.
  unfold fixUnescapedAmp. rewrite guarded_replace_g. unfold replace_g.
  induction s as [|c t IH]; [reflexivity|].
  rewrite replace_from_here, unescapedAmpRegex_at. cbn [escapeAmp].
  destruct ((c =? ch "&") && negb (lookahead_hits t)).
  - cbn [matched List.length]. rewrite IH. reflexivity.
  - now rewrite IH.
Qed.

(** [escapeAmp] does what the specification's relation says. *)
Lemma escapeAmp_amp_escaped s : spec_amp_escaped s (escapeAmp s).
Proof.
  induction s as [|c t IH]; [constructor|].
  cbn [escapeAmp]. destruct (N.eqb_spec c (ch "&")) as [->|Hc]; cbn [andb].
  - destruct (lookahead_hits t) eqn:E; cbn [negb].
    + apply amp_entity; [now apply lookahead_hits_spec|exact IH].
    + apply amp_bare; [now apply lookahead_miss_spec|exact IH].
  - now apply amp_other.
Qed.

(** * How the fixes act on each other's output *)

Lemma same_letter_high a c : 65 <= a -> same_letter a c = true -> 65 <= c.
Proof.
  unfold same_letter, fold_case. intros Ha H. cmp_cases.
Qed.

Lemma spelt_high w t : Forall (fun a => 65 <= a) w -> spelt w t -> Forall plain t.
Proof.
  intros Hw Hs. induction Hs as [|a c w t Hc Hs IH]; [constructor|].
  inversion Hw; subst. constructor; [|auto].
  assert (65 <= c) by (eapply same_letter_high; eauto).
  unfold plain. cbn. lia.
Qed.

Lemma digit_plain c : digit c = true -> plain c.
Proof.
  unfold digit, plain. intros H. cbn. cmp_cases.
Qed.

Lemma hexDigit_plain c : hexDigit c = true -> plain c.
Proof.
  unfold hexDigit, digit, plain. intros H. cbn. cmp_cases.
Qed.

Lemma entity_tail_plain t : entity_tail t -> Forall plain t.
Proof.
  assert (Hsemi : Forall plain (js ";")).
  { repeat constructor; discriminate. }
  intros [n w Hn Hs | ds Hne Hall | x ds Hx Hne Hall].
  - apply Forall_app. split; [|exact Hsemi].
    apply spelt_high with (js n); [|exact Hs].
    cbn [entityNames In] in Hn.
    destruct Hn as [<-|[<-|[<-|[<-|[<-|[]]]]]]; repeat constructor; discriminate.
  - constructor; [split; discriminate|].
    apply Forall_app. split; [|exact Hsemi].
    eapply Forall_impl; [|exact Hall]. apply digit_plain.
  - constructor; [split; discriminate|].
    constructor.
    + assert (H : Forall plain [x]).
      { apply spelt_high with (js "x"); [repeat constructor; discriminate|exact Hx]. }
      now inversion H.
    + apply Forall_app. split; [|exact Hsemi].
      eapply Forall_impl; [|exact Hall]. apply hexDigit_plain.
Qed.

Lemma escapeAmp_plain a r : Forall plain a -> escapeAmp (a ++ r) = a ++ escapeAmp r.
Proof.
  induction 1 as [|c a [Hc _] Ha IH]; [reflexivity|].
  cbn [app escapeAmp]. apply N.eqb_neq in Hc. rewrite Hc. cbn [andb].
  now rewrite IH.
Qed.

Lemma escapeLt_plain a r : Forall plain a -> spec_escapeLt (a ++ r) = a ++ spec_escapeLt r.
Proof.
  induction 1 as [|c a [_ Hc] Ha IH]; [reflexivity|].
  cbn [app spec_escapeLt]. apply N.eqb_neq in Hc. rewrite Hc. cbn [andb].
  now rewrite IH.
Qed.

Lemma starts_entity_app s r : starts_entity s -> starts_entity (s ++ r).
Proof.
  intros (t & u & Ht & ->). exists t, (u ++ r). split; [exact Ht|].
  now rewrite app_assoc.
Qed.

Lemma starts_entity_escapeAmp s : starts_entity s -> starts_entity (escapeAmp s).
Proof.
  intros (t & u & Ht & ->). rewrite escapeAmp_plain by now apply entity_tail_plain.
  now exists t, (escapeAmp u).
Qed.

Lemma starts_entity_escapeLt s : starts_entity s -> starts_entity (spec_escapeLt s).
Proof.
  intros (t & u & Ht & ->). rewrite escapeLt_plain by now apply entity_tail_plain.
  now exists t, (spec_escapeLt u).
Qed.

Lemma spelt_refl w : spelt w w.
Proof.
  induction w; constructor; [apply N.eqb_refl|assumption].
Qed.

Lemma starts_entity_named n r : In n entityNames -> starts_entity (js n ++ js ";" ++ r).
Proof.
  intros Hn. exists (js n ++ js ";"), r. split; [|now rewrite app_assoc].
  apply tail_named with n; [exact Hn|apply spelt_refl].
Qed.

Lemma amps_escaped_nil : amps_escaped [].
Proof.
  intros [|c p] q H; discriminate.
Qed.

Lemma amps_escaped_cons c t :
  amps_escaped (c :: t) <-> (c = ch "&" -> starts_entity t) /\ amps_escaped t.
Proof.
  split.
  - intros H. split.
    + intros ->. now apply (H [] t).
    + intros p q ->. now apply (H (c :: p) q).
  - intros [H1 H2] [|d p] q E.
    + injection E as -> ->. now apply H1.
    + injection E as -> ->. now apply (H2 p q).
Qed.

Lemma amps_escaped_other c t : c <> ch "&" -> amps_escaped t -> amps_escaped (c :: t).
Proof.
  intros Hc Ht. apply amps_escaped_cons. split; [intros E; contradiction|exact Ht].
Qed.

Lemma amps_escaped_app s r : amps_escaped s -> amps_escaped r -> amps_escaped (s ++ r).
Proof.
  induction s as [|c t IH]; intros Hs Hr; [exact Hr|].
  apply amps_escaped_cons in Hs. destruct Hs as [H1 H2].
  cbn [app]. apply amps_escaped_cons. split.
  - intros E. now apply starts_entity_app, H1.
  - now apply IH.
Qed.

Lemma amps_escaped_escapeAmp s : amps_escaped (escapeAmp s).
Proof.
  induction s as [|c t IH]; [apply amps_escaped_nil|].
  cbn [escapeAmp]. destruct (N.eqb_spec c (ch "&")) as [->|Hc]; cbn [andb].
  - destruct (lookahead_hits t) eqn:E; cbn [negb].
    + apply amps_escaped_cons. split; [|exact IH]. intros _.
      now apply starts_entity_escapeAmp, lookahead_hits_spec.
    + change (js "&amp;" ++ escapeAmp t)
        with (ch "&" :: js "amp" ++ js ";" ++ escapeAmp t).
      apply amps_escaped_cons. split.
      * intros _. apply starts_entity_named. cbn; auto.
      * cbn [js list_ascii_of_string map app].
        repeat (apply amps_escaped_other; [discriminate|]). exact IH.
  - now apply amps_escaped_other.
Qed.

Lemma amps_escaped_escapeLt s : amps_escaped s -> amps_escaped (spec_escapeLt s).
Proof.
  induction s as [|c t IH]; intros Hs; [apply amps_escaped_nil|].
  apply amps_escaped_cons in Hs. destruct Hs as [H1 H2].
  cbn [spec_escapeLt]. destruct ((c =? ch "<") && wsAhead t).
  - change (js "&lt;" ++ spec_escapeLt t)
      with (ch "&" :: js "lt" ++ js ";" ++ spec_escapeLt t).
    apply amps_escaped_cons. split.
    + intros _. apply starts_entity_named. cbn; auto.
    + cbn [js list_ascii_of_string map app].
      repeat (apply amps_escaped_other; [discriminate|]). now apply IH.
  - apply amps_escaped_cons. split; [|now apply IH].
    intros E. now apply starts_entity_escapeLt, H1.
Qed.

Lemma amps_escaped_closeTag s : amps_escaped s -> amps_escaped (closeTag s).
Proof.
  intros Hs. unfold closeTag. destruct (endsPartial s); [|exact Hs].
  apply amps_escaped_app; [exact Hs|].
  apply amps_escaped_other; [discriminate|apply amps_escaped_nil].
Qed.

Lemma escapeAmp_fixed s : amps_escaped s -> escapeAmp s = s.
Proof.
  induction s as [|c t IH]; intros Hs; [reflexivity|].
  apply amps_escaped_cons in Hs. destruct Hs as [H1 H2].
  cbn [escapeAmp]. destruct (N.eqb_spec c (ch "&")) as [E|Hc]; cbn [andb].
  - apply H1, lookahead_hits_spec in E. rewrite E. cbn [negb]. now rewrite IH.
  - now rewrite IH.
Qed.

Lemma wsAhead_escapeLt t : wsAhead (spec_escapeLt t) = wsAhead t.
Proof.
  destruct t as [|c t]; [reflexivity|]. cbn [spec_escapeLt].
  destruct (N.eqb_spec c (ch "<")) as [->|Hc]; cbn [andb]; [|reflexivity].
  destruct (wsAhead t); reflexivity.
Qed.

Lemma lts_escaped_escapeLt s : lts_escaped (spec_escapeLt s) = true.
Proof.
  induction s as [|c t IH]; [reflexivity|].
  cbn [spec_escapeLt]. destruct ((c =? ch "<") && wsAhead t) eqn:E.
  - cbn. exact IH.
  - cbn [lts_escaped]. now rewrite wsAhead_escapeLt, E, IH.
Qed.

Lemma escapeLt_fixed s : lts_escaped s = true -> spec_escapeLt s = s.
Proof.
  induction s as [|c t IH]; [reflexivity|].
  cbn [lts_escaped spec_escapeLt]. intros H. apply andb_prop in H. destruct H as [H1 H2].
  apply negb_true_iff in H1. rewrite H1. now rewrite IH.
Qed.

Lemma lts_escaped_gt s : lts_escaped s = true -> lts_escaped (s ++ js ">") = true.
Proof.
  induction s as [|c t IH]; [reflexivity|].
  cbn [lts_escaped app]. intros H. apply andb_prop in H. destruct H as [H1 H2].
  rewrite (IH H2), andb_true_r.
  destruct t as [|d t]; [now rewrite andb_false_r|exact H1].
Qed.

Lemma lts_escaped_closeTag s : lts_escaped s = true -> lts_escaped (closeTag s) = true.
Proof.
  intros H. unfold closeTag. destruct (endsPartial s); [|exact H].
  now apply lts_escaped_gt.
Qed.

(** ** Characters the fixes add or drop *)

Section Inserted.
Variable P : unit16 -> Prop.

Lemma escapeAmp_Forall s :
  Forall P (js "&amp;") -> Forall P s -> Forall P (escapeAmp s).
Proof.
  intros Hins. induction 1 as [|c t Hc Ht IH]; [constructor|].
  cbn [escapeAmp]. destruct ((c =? ch "&") && negb (lookahead_hits t)).
  - apply Forall_app. now split.
  - now constructor.
Qed.

Lemma escapeLt_Forall s :
  Forall P (js "&lt;") -> Forall P s -> Forall P (spec_escapeLt s).
Proof.
  intros Hins. induction 1 as [|c t Hc Ht IH]; [constructor|].
  cbn [spec_escapeLt]. destruct ((c =? ch "<") && wsAhead t).
  - apply Forall_app. now split.
  - now constructor.
Qed.

Lemma closeTag_Forall s :
  Forall P (js ">") -> Forall P s -> Forall P (closeTag s).
Proof.
  intros Hins Hs. unfold closeTag. destruct (endsPartial s); [|exact Hs].
  apply Forall_app. now split.
Qed.

End Inserted.

Lemma filter_legal_Forall s : Forall (fun c => legal c = true) (filter legal s).
Proof.
  apply Forall_forall. intros c Hc. now apply filter_In in Hc.
Qed.

Lemma filter_fixed (p : unit16 -> bool) s :
  Forall (fun c => p c = true) s -> filter p s = s.
Proof.
  induction 1 as [|c t Hc Ht IH]; [reflexivity|].
  cbn [filter]. now rewrite Hc, IH.
Qed.

Lemma tabLfCr_legal c : tabLfCr c = true -> legal c = true.
Proof.
  unfold tabLfCr, legal, illegalChar. intros H. cmp_cases.
Qed.

Lemma tabLfCr_filter_legal s : filter tabLfCr (filter legal s) = filter tabLfCr s.
Proof.
  induction s as [|c t IH]; [reflexivity|].
  cbn [filter]. destruct (legal c) eqn:Hl.
  - cbn [filter]. now rewrite IH.
  - rewrite IH. destruct (tabLfCr c) eqn:Ht; [|reflexivity].
    apply tabLfCr_legal in Ht. congruence.
Qed.

Lemma tabLfCr_escapeAmp s : filter tabLfCr (escapeAmp s) = filter tabLfCr s.
Proof.
  induction s as [|c t IH]; [reflexivity|].
  cbn [escapeAmp]. destruct (N.eqb_spec c (ch "&")) as [->|Hc]; cbn [andb].
  - destruct (negb (lookahead_hits t)); cbn; now rewrite IH.
  - cbn [filter]. now rewrite IH.
Qed.

Lemma tabLfCr_escapeLt s : filter tabLfCr (spec_escapeLt s) = filter tabLfCr s.
Proof.
  induction s as [|c t IH]; [reflexivity|].
  cbn [spec_escapeLt]. destruct (N.eqb_spec c (ch "<")) as [->|Hc]; cbn [andb].
  - destruct (wsAhead t); cbn; now rewrite IH.
  - cbn [filter]. now rewrite IH.
Qed.

Lemma tabLfCr_closeTag s : filter tabLfCr (closeTag s) = filter tabLfCr s.
Proof.
  unfold closeTag. destruct (endsPartial s); [|reflexivity].
  rewrite filter_app. cbn. apply app_nil_r.
Qed.

(** ** Text that the first three fixes carry to the end unchanged *)

Lemma escapeAmp_no_amp t : Forall (fun c => c <> ch "&") t -> escapeAmp t = t.
Proof.
  induction 1 as [|c t Hc Ht IH]; [reflexivity|].
  cbn [escapeAmp]. apply N.eqb_neq in Hc. rewrite Hc. cbn [andb]. now rewrite IH.
Qed.

Lemma escapeAmp_keeps_suffix t : Forall (fun c => c <> ch "&") t ->
  forall p, exists q, escapeAmp (p ++ t) = q ++ t.
Proof.
  intros Ht. induction p as [|c p [q IH]].
  - exists []. now apply escapeAmp_no_amp.
  - cbn [app escapeAmp]. rewrite IH.
    destruct ((c =? ch "&") && negb (lookahead_hits (p ++ t))).
    + exists (js "&amp;" ++ q). now rewrite app_assoc.
    + now exists (c :: q).
Qed.

Lemma escapeLt_keeps_suffix t : lts_escaped t = true ->
  forall p, exists q, spec_escapeLt (p ++ t) = q ++ t.
Proof.
  intros Ht. induction p as [|c p [q IH]].
  - exists []. now apply escapeLt_fixed.
  - cbn [app spec_escapeLt]. rewrite IH.
    destruct ((c =? ch "<") && wsAhead (p ++ t)).
    + exists (js "&lt;" ++ q). now rewrite app_assoc.
    + now exists (c :: q).
Qed.

Lemma nameChar_facts c :
  nameChar c = true -> legal c = true /\ c <> ch "&" /\ c <> ch "<".
Proof.
  unfold nameChar, digit, legal, illegalChar. intros H. cbn. cmp_cases.
Qed.

Section PartialTag.
Variable name : jsstring.
Hypothesis name_chars : Forall (fun c => nameChar c = true) name.

Lemma partial_tag_legal : Forall (fun c => legal c = true) (js "</" ++ name).
Proof.
  apply Forall_app. split; [now repeat constructor|].
  eapply Forall_impl; [|exact name_chars]. intros c Hc. now apply nameChar_facts.
Qed.

Lemma partial_tag_no_amp : Forall (fun c => c <> ch "&") (js "</" ++ name).
Proof.
  apply Forall_app. split; [repeat constructor; discriminate|].
  eapply Forall_impl; [|exact name_chars]. intros c Hc. now apply nameChar_facts.
Qed.

Lemma name_lts_escaped : lts_escaped name = true.
Proof.
  induction name_chars as [|c t Hc Ht IH]; [reflexivity|].
  cbn [lts_escaped]. apply nameChar_facts in Hc. destruct Hc as (_ & _ & Hc).
  apply N.eqb_neq in Hc. now rewrite Hc, IH.
Qed.

Lemma partial_tag_lts_escaped : lts_escaped (js "</" ++ name) = true.
Proof.
  cbn. exact name_lts_escaped.
Qed.

End PartialTag.

(** ** Equality of strings *)

Lemma str_eqb_eq a : forall b, str_eqb a b = true <-> a = b.
Proof.
  induction a as [|x a IH]; intros [|y b]; cbn [str_eqb]; split;
    try reflexivity; try discriminate.
  - intros H. apply andb_prop in H. destruct H as [H1 H2].
    apply N.eqb_eq in H1. apply IH in H2. now subst.
  - intros E. injection E as -> ->. rewrite N.eqb_refl. now apply IH.
Qed.

(** ** The pipeline as a whole *)

Lemma heuristicRepair_fixedContent parser x :
  fixedContent (heuristicRepair parser x) =
  closeTag (spec_escapeLt (escapeAmp (filter legal x))).
Proof.
  unfold heuristicRepair. cbn [fixedContent].
  now rewrite removeIllegalChars_filter, fixUnescapedAmp_escapeAmp,
    fixUnescapedLt_escapeLt, fixMalformedClosing_closeTag.
Qed.

Lemma output_legal x :
  Forall (fun c => legal c = true) (closeTag (spec_escapeLt (escapeAmp (filter legal x)))).
Proof.
  apply closeTag_Forall; [now repeat constructor|].
  apply escapeLt_Forall; [now repeat constructor|].
  apply escapeAmp_Forall; [now repeat constructor|].
  apply filter_legal_Forall.
Qed.

Lemma output_amps_escaped x :
  amps_escaped (closeTag (spec_escapeLt (escapeAmp (filter legal x)))).
Proof.
  apply amps_escaped_closeTag, amps_escaped_escapeLt, amps_escaped_escapeAmp.
Qed.

Lemma output_lts_escaped x :
  lts_escaped (closeTag (spec_escapeLt (escapeAmp (filter legal x)))) = true.
Proof.
  apply lts_escaped_closeTag, lts_escaped_escapeLt.
Qed.

(** Text in which none of the four patterns occurs passes unchanged. *)
Lemma fixes_inert x :
  Forall (fun c => legal c = true) x -> amps_escaped x -> lts_escaped x = true ->
  endsPartial x = false ->
  closeTag (spec_escapeLt (escapeAmp (filter legal x))) = x.
Proof.
  intros H1 H2 H3 H4.
  rewrite (filter_fixed _ _ H1), (escapeAmp_fixed _ H2), (escapeLt_fixed _ H3).
  unfold closeTag. now rewrite H4.
Qed.

(** * Properties of the repair pipeline *)

Lemma amp_escaped_fun s : forall a b, spec_amp_escaped s a -> spec_amp_escaped s b -> a = b.
Proof.
  induction s as [|c t IH]; intros a b Ha Hb.
  - inversion Ha; inversion Hb; reflexivity.
  - inversion Ha; subst; inversion Hb; subst;
      try contradiction; try congruence;
      match goal with
      | H1 : spec_amp_escaped t ?x, H2 : spec_amp_escaped t ?y |- _ =>
          now rewrite (IH x y H1 H2)
      end.
Qed.

(** C1, as the code has it: in the text left by control-character stripping,
    every [&] that does not start [amp;], [lt;], [gt;], [apos;], [quot;],
    [#<digits>;] or [#x<hex digits>;] -- the whole reference read without
    regard to case -- becomes [&amp;], every other [&] and every other
    character stays, and the result then goes through fixes 3 and 4.
    [A & B] becomes [A &amp; B], [A &amp; B] stays, [<a>&</a>] becomes
    [<a>&amp;</a>]. *)
Theorem ampersands_escaped parser x :
  (exists c2,
     spec_amp_escaped (removeIllegalChars x) c2 /\
     fixedContent (heuristicRepair parser x) = fixMalformedClosing (fixUnescapedLt c2)) /\
  fixedContent (heuristicRepair parser (js "A & B")) = js "A &amp; B" /\
  fixedContent (heuristicRepair parser (js "A &amp; B")) = js "A &amp; B" /\
  fixedContent (heuristicRepair parser (js "<a>&</a>")) = js "<a>&amp;</a>".
Proof.
  split; [|repeat split; reflexivity].
  exists (fixUnescapedAmp (removeIllegalChars x)). split; [|reflexivity].
  rewrite fixUnescapedAmp_escapeAmp. apply escapeAmp_amp_escaped.
Qed.

(** C1 as stated fails on [&AMP;]: with the names read in lower case only,
    this [&] starts no recognised reference and would become [&amp;], giving
    [&amp;AMP;]; the code leaves it as it is. *)
Lemma uppercase_entity_left_alone :
  escapeAmp_exact (js "&AMP;") = js "&amp;AMP;" /\
  forall parser, fixedContent (heuristicRepair parser (js "&AMP;")) = js "&AMP;".
Proof.
  split; [reflexivity|]. intros parser. reflexivity.
Qed.

Lemma validateXML_valid parser x :
  Validation.isValid (validateXML parser x) = true ->
  Validation.errors (validateXML parser x) = [].
Proof.
  unfold validateXML. destruct (parsererror parser x); [discriminate|reflexivity].
Qed.

Lemma str_eqb_refl a : str_eqb a a = true.
Proof. now apply str_eqb_eq. Qed.

(** C2, as the code has it: an input in which none of the four patterns
    occurs (no illegal control character, no [&] outside a recognised entity
    reference, no [<] directly before white space, no [</name] at the very
    end) comes back unchanged, with [wasModified = false]; [isValid] and
    [errors] are those [validateXML] gives for that same text, so
    [isValid = true] and [errors = []] exactly when [querySelector] finds no
    [parsererror] element in the parsed document. *)
Theorem untouched_input_unchanged parser x :
  Forall (fun c => illegalChar c = false) x ->
  amps_escaped x ->
  lts_escaped x = true ->
  ~ ends_with_partial_closing_tag x ->
  heuristicRepair parser x =
  {| fixedContent := x;
     isValid := Validation.isValid (validateXML parser x);
     errors := Validation.errors (validateXML parser x);
     wasModified := false |} /\
  (parsererror parser x = None ->
   isValid (heuristicRepair parser x) = true /\ errors (heuristicRepair parser x) = []) /\
  (forall node, parsererror parser x = Some node ->
   isValid (heuristicRepair parser x) = false /\
   exists e, errors (heuristicRepair parser x) = [e] /\ e <> []).
Proof.
  intros H1 H2 H3 H4.
  assert (E : fixedContent (heuristicRepair parser x) = x).
  { rewrite heuristicRepair_fixedContent. apply fixes_inert; auto.
    - eapply Forall_impl; [|exact H1]. intros c Hc. unfold legal. now rewrite Hc.
    - destruct (endsPartial x) eqn:Hp; [|reflexivity].
      now apply endsPartial_spec in Hp. }
  unfold heuristicRepair in *. cbn [fixedContent isValid errors] in *. rewrite E.
  rewrite str_eqb_refl. split; [reflexivity|].
  unfold validateXML. split.
  - intros ->. now split.
  - intros node ->. cbn. split; [reflexivity|].
    eexists. split; [reflexivity|].
    destruct node as [[|c t]|]; cbn; discriminate.
Qed.

Lemma amps_escaped_by_evaluation s : escapeAmp s = s -> amps_escaped s.
Proof.
  intros <-. apply amps_escaped_escapeAmp.
Qed.

Lemma no_partial_tag_by_evaluation s :
  endsPartial s = false -> ~ ends_with_partial_closing_tag s.
Proof.
  intros E H. apply endsPartial_spec in H. congruence.
Qed.

Lemma legal_by_evaluation s :
  forallb legal s = true -> Forall (fun c => illegalChar c = false) s.
Proof.
  intros H. apply forallb_Forall_true in H.
  eapply Forall_impl; [|exact H]. intros c. unfold legal. apply negb_true_iff.
Qed.

Lemma untouched_input_unchanged_witness :
  heuristicRepair strictParser plainDoc =
  {| fixedContent := plainDoc; isValid := true; errors := []; wasModified := false |} /\
  heuristicRepair elementParser parsererrorDoc =
  {| fixedContent := parsererrorDoc; isValid := false; errors := [js "boom"];
     wasModified := false |}.
Proof.
  split.
  - destruct (untouched_input_unchanged strictParser plainDoc) as (E & _).
    + apply legal_by_evaluation. reflexivity.
    + apply amps_escaped_by_evaluation. reflexivity.
    + reflexivity.
    + apply no_partial_tag_by_evaluation. reflexivity.
    + exact E.
  - destruct (untouched_input_unchanged elementParser parsererrorDoc) as (E & _).
    + apply legal_by_evaluation. reflexivity.
    + apply amps_escaped_by_evaluation. reflexivity.
    + reflexivity.
    + apply no_partial_tag_by_evaluation. reflexivity.
    + exact E.
Defined.

(** C2 as stated fails on a well-formed document that keeps an [&] in a
    CDATA section: the parser accepts it, and the ampersand fix rewrites it
    all the same. *)
Lemma wellformed_cdata_rewritten :
  Validation.isValid (validateXML strictParser cdataDoc) = true /\
  forall parser,
    wasModified (heuristicRepair parser cdataDoc) = true /\
    fixedContent (heuristicRepair parser cdataDoc) = js "<a><![CDATA[A &amp; B]]></a>" /\
    fixedContent (heuristicRepair parser cdataDoc) <> cdataDoc.
Proof.
  split; [reflexivity|]. intros parser.
  split; [reflexivity|]. split; [reflexivity|]. discriminate.
Qed.

(** C3: running the repair on its own output gives that output again. *)
Theorem heuristicRepair_idempotent parser x :
  fixedContent (heuristicRepair parser (fixedContent (heuristicRepair parser x))) =
  fixedContent (heuristicRepair parser x).
Proof.
  rewrite !heuristicRepair_fixedContent.
  rewrite (filter_fixed _ _ (output_legal x)).
  rewrite (escapeAmp_fixed _ (output_amps_escaped x)).
  rewrite (escapeLt_fixed _ (output_lts_escaped x)).
  apply closeTag_fixed.
Qed.

(** C4: [validateXML] is a total function of its input (no outcome of it is
    an exception); [isValid] holds exactly when [errors] is empty; on a parse
    failure [errors] has exactly one entry, the parser's message, or
    [Unknown XML parsing error] when there is none (null or empty); so
    [errors] is never empty when [isValid] is false. *)
Theorem validateXML_outcome parser xml :
  let r := validateXML parser xml in
  Validation.isValid r = Nat.eqb (List.length (Validation.errors r)) 0 /\
  match parsererror parser xml with
  | None => Validation.isValid r = true /\ Validation.errors r = []
  | Some message =>
      Validation.isValid r = false /\
      exists e,
        Validation.errors r = [e] /\ e <> [] /\
        match message with
        | Some (c :: t) => e = c :: t
        | _ => e = js "Unknown XML parsing error"
        end
  end /\
  (Validation.isValid r = false -> Validation.errors r <> []).
Proof.
  unfold validateXML. destruct (parsererror parser xml) as [message|]; cbn.
  - split; [reflexivity|]. split; [|discriminate]. split; [reflexivity|].
    eexists. split; [reflexivity|].
    destruct message as [[|c t]|]; cbn; split; (discriminate || reflexivity).
  - repeat split. discriminate.
Qed.

Lemma validateXML_outcome_witness :
  Validation.isValid (validateXML strictParser (js "<a")) = false /\
  Validation.errors (validateXML strictParser (js "<a")) = [js "error on line 1"] /\
  Validation.errors (validateXML strictParser (js "<a")) <> [].
Proof.
  destruct (validateXML_outcome strictParser (js "<a")) as (_ & _ & H).
  split; [reflexivity|]. split; [reflexivity|]. apply H. reflexivity.
Defined.

(** C5: [heuristicRepair] sets [wasModified] exactly when [fixedContent]
    differs from the input; whatever [repairWithGemini] returns has
    [wasModified = true]. *)
Theorem wasModified_meaning parser x :
  (wasModified (heuristicRepair parser x) = true <->
   fixedContent (heuristicRepair parser x) <> x) /\
  (forall env newGoogleGenAI r,
     repairWithGemini parser env newGoogleGenAI x = Fulfilled r ->
     wasModified r = true).
Proof.
  split.
  - unfold heuristicRepair. cbn [wasModified fixedContent].
    rewrite negb_true_iff, <- not_true_iff_false, str_eqb_eq. reflexivity.
  - intros env sdk r. unfold repairWithGemini.
    destruct (API_KEY env) as [[|k key]|]; try discriminate.
    destruct (generateContent _ _); [|discriminate].
    intros E. injection E as <-. reflexivity.
Qed.

Lemma wasModified_meaning_witness :
  wasModified (heuristicRepair strictParser (js "A & B")) = true /\
  exists r,
    repairWithGemini strictParser someKey fencedAnswer (js "<a>") = Fulfilled r /\
    wasModified r = true.
Proof.
  destruct (wasModified_meaning strictParser (js "A & B")) as [H _].
  destruct (wasModified_meaning strictParser (js "<a>")) as [_ G].
  split.
  - apply H. discriminate.
  - eexists. split; [reflexivity|]. apply (G someKey fencedAnswer). reflexivity.
Defined.

(** C6: no character of 0x00-0x08, 0x0B, 0x0C, 0x0E-0x1F is left in
    [fixedContent] (the first fix drops exactly those), while the tabs, line
    feeds and carriage returns of the input are all kept, in order; 0x01 is
    removed and 0x0A preserved in [A 0x01 0x0A B]. *)
Theorem control_characters_stripped parser x :
  let out := fixedContent (heuristicRepair parser x) in
  Forall (fun c => illegalChar c = false) out /\
  filter tabLfCr out = filter tabLfCr x /\
  removeIllegalChars x = filter (fun c => negb (illegalChar c)) x /\
  fixedContent (heuristicRepair parser [65; 1; 10; 66]) = [65; 10; 66].
Proof.
  cbv zeta. split; [|split; [|split; [|reflexivity]]].
  - rewrite heuristicRepair_fixedContent.
    eapply Forall_impl; [|apply output_legal].
    intros c. unfold legal. apply negb_true_iff.
  - rewrite heuristicRepair_fixedContent.
    now rewrite tabLfCr_closeTag, tabLfCr_escapeLt, tabLfCr_escapeAmp,
      tabLfCr_filter_legal.
  - apply removeIllegalChars_filter.
Qed.

(** C7, as the code has it: in the text left by the first two fixes, the
    third fix turns every [<] directly followed by a white-space character
    into [&lt;], keeps that white-space character, and leaves any other [<]
    alone; the result then goes through fix 4. [5 < 10] becomes [5 &lt; 10]
    and [<trans-unit>] stays. *)
Theorem bare_lt_escaped parser x :
  fixedContent (heuristicRepair parser x) =
    fixMalformedClosing (spec_escapeLt (fixUnescapedAmp (removeIllegalChars x))) /\
  (forall w t, whiteSpace w = true ->
     spec_escapeLt (ch "<" :: w :: t) = js "&lt;" ++ w :: spec_escapeLt t) /\
  (forall c t, whiteSpace c = false ->
     spec_escapeLt (ch "<" :: c :: t) = ch "<" :: spec_escapeLt (c :: t)) /\
  fixedContent (heuristicRepair parser (js "5 < 10")) = js "5 &lt; 10" /\
  fixedContent (heuristicRepair parser (js "<trans-unit>")) = js "<trans-unit>".
Proof.
  split; [|split; [|split; [|split; reflexivity]]].
  - unfold heuristicRepair. cbn [fixedContent]. now rewrite fixUnescapedLt_escapeLt.
  - intros w t Hw. cbn [spec_escapeLt wsAhead]. rewrite Hw, N.eqb_refl.
    cbn [andb]. now rewrite (whiteSpace_not_lt _ Hw).
  - intros c t Hc. cbn [spec_escapeLt wsAhead]. now rewrite Hc, andb_false_r.
Qed.

Lemma bare_lt_escaped_witness :
  spec_escapeLt (ch "<" :: ch " " :: js "10") = js "&lt;" ++ ch " " :: spec_escapeLt (js "10") /\
  spec_escapeLt (ch "<" :: ch "a" :: js ">") = ch "<" :: spec_escapeLt (ch "a" :: js ">").
Proof.
  destruct (bare_lt_escaped strictParser []) as (_ & H1 & H2 & _).
  split; [apply H1|apply H2]; reflexivity.
Defined.

(** C7 as stated for the raw input fails both ways: in [< 0x0B a] the [<]
    stands before a white-space character, yet fix 1 strips that character
    first and the output is [<a]; in [< 0x01 space a] the [<] stands before
    a character that is no white space, yet the output is [&lt; a]. *)
Lemma lt_judged_after_stripping :
  whiteSpace 11 = true /\
  (forall parser, fixedContent (heuristicRepair parser [ch "<"; 11; ch "a"]) = js "<a") /\
  whiteSpace 1 = false /\
  (forall parser,
     fixedContent (heuristicRepair parser [ch "<"; 1; ch " "; ch "a"]) = js "&lt; a").
Proof.
  repeat split.
Qed.

(** C8, as the code has it: an input that ends with [</name], [name] a
    non-empty run of letters, digits, [-] and [_] (the class
    [[a-zA-Z0-9-_]]), comes out ending with [</name>]; the fourth fix adds
    at most that one [>] at the very end of the text it receives and changes
    nothing else. *)
Theorem truncated_closing_tag_repaired parser :
  (forall p name,
     name <> [] -> Forall (fun c => nameChar c = true) name ->
     exists q,
       fixedContent (heuristicRepair parser (p ++ js "</" ++ name)) =
       q ++ js "</" ++ name ++ js ">") /\
  (forall x,
     let before := fixUnescapedLt (fixUnescapedAmp (removeIllegalChars x)) in
     (ends_with_partial_closing_tag before ->
      fixedContent (heuristicRepair parser x) = before ++ js ">") /\
     (~ ends_with_partial_closing_tag before ->
      fixedContent (heuristicRepair parser x) = before)).
Proof.
  split.
  - intros p name Hne Hall. rewrite heuristicRepair_fixedContent.
    rewrite filter_app, (filter_fixed _ _ (partial_tag_legal name Hall)).
    destruct (escapeAmp_keeps_suffix _ (partial_tag_no_amp name Hall) (filter legal p))
      as [q1 ->].
    destruct (escapeLt_keeps_suffix _ (partial_tag_lts_escaped name Hall) q1)
      as [q2 ->].
    exists q2. unfold closeTag.
    assert (E : endsPartial (q2 ++ js "</" ++ name) = true).
    { apply endsPartial_spec. now exists q2, name. }
    rewrite E. now rewrite <- !app_assoc.
  - intros x before. subst before.
    unfold heuristicRepair. cbn [fixedContent].
    rewrite fixMalformedClosing_closeTag. unfold closeTag.
    split; intros H.
    + apply endsPartial_spec in H. now rewrite H.
    + destruct (endsPartial _) eqn:E; [|reflexivity].
      apply endsPartial_spec in E. contradiction.
Qed.

Lemma truncated_closing_tag_repaired_witness :
  exists q,
    fixedContent (heuristicRepair strictParser (js "<x>A & B" ++ js "</" ++ js "trans-unit")) =
    q ++ js "</" ++ js "trans-unit" ++ js ">".
Proof.
  destruct (truncated_closing_tag_repaired strictParser) as [H _].
  apply (H (js "<x>A & B") (js "trans-unit")).
  - discriminate.
  - apply forallb_Forall_true. reflexivity.
Defined.

(** C8 as stated fails on names outside that class: an input ending in the
    truncated closing tag [</ns:tag] or [</trans.unit] is returned as it
    is, with no [>] added. *)
Lemma qualified_name_not_repaired :
  (forall parser,
     fixedContent (heuristicRepair parser (js "<ns:tag>x" ++ js "</" ++ js "ns:tag")) =
     js "<ns:tag>x" ++ js "</" ++ js "ns:tag") /\
  (forall parser,
     fixedContent (heuristicRepair parser (js "<trans.unit>x" ++ js "</" ++ js "trans.unit")) =
     js "<trans.unit>x" ++ js "</" ++ js "trans.unit").
Proof.
  split; intros parser; reflexivity.
Qed.

(** C9: without an API key (none, or an empty one) [repairWithGemini] fails
    with an error and returns no result; a result it does return has
    [wasModified = true], and
    its [isValid] and [errors] are those of [validateXML] on its
    [fixedContent]. *)
Theorem repairWithGemini_contract parser env newGoogleGenAI brokenContent :
  (API_KEY env = None \/ API_KEY env = Some [] ->
   repairWithGemini parser env newGoogleGenAI brokenContent =
   Rejected (js "API Key not found. Please select a key.")) /\
  (forall r,
     repairWithGemini parser env newGoogleGenAI brokenContent = Fulfilled r ->
     wasModified r = true /\
     isValid r = Validation.isValid (validateXML parser (fixedContent r)) /\
     errors r = Validation.errors (validateXML parser (fixedContent r))).
Proof.
  unfold repairWithGemini. split.
  - intros [-> | ->]; reflexivity.
  - intros r. destruct (API_KEY env) as [[|k key]|]; try discriminate.
    destruct (generateContent _ _); [|discriminate].
    intros E. injection E as <-. cbn. auto.
Qed.

Lemma repairWithGemini_contract_witness :
  repairWithGemini strictParser noKey fencedAnswer (js "<a>") =
    Rejected (js "API Key not found. Please select a key.") /\
  exists r,
    repairWithGemini strictParser someKey fencedAnswer (js "<a>") = Fulfilled r /\
    fixedContent r = js "<a/>" /\
    wasModified r = true /\
    isValid r = Validation.isValid (validateXML strictParser (fixedContent r)) /\
    errors r = Validation.errors (validateXML strictParser (fixedContent r)).
Proof.
  split.
  - apply (repairWithGemini_contract strictParser noKey fencedAnswer (js "<a>")).
    left. reflexivity.
  - eexists. split; [reflexivity|]. split; [reflexivity|].
    apply (repairWithGemini_contract strictParser someKey fencedAnswer (js "<a>")).
    reflexivity.
Defined.

(** C10: in [fixedContent] every [&] is directly followed by a recognised
    entity tail ([amp;], [lt;], [gt;], [apos;], [quot;], [#<digits>;] or
    [#x<hex digits>;], in any case): no bare ampersand is left. *)
Theorem no_bare_ampersand_left parser x p q :
  fixedContent (heuristicRepair parser x) = p ++ ch "&" :: q ->
  starts_entity q.
Proof.
  rewrite heuristicRepair_fixedContent. intros E.
  exact (output_amps_escaped x p q E).
Qed.

Lemma no_bare_ampersand_left_witness :
  fixedContent (heuristicRepair strictParser (js "A & B < C")) =
    js "A " ++ ch "&" :: js "amp; B &lt; C" /\
  starts_entity (js "amp; B &lt; C").
Proof.
  split; [reflexivity|].
  apply (no_bare_ampersand_left strictParser (js "A & B < C") (js "A ")).
  reflexivity.
Defined.

(** * Further properties of repairService.ts *)

Section Testing.
Variable m : matcher.

Lemma test_nil : test m [] = match m [] with [] => false | _ :: _ => true end.
Proof. reflexivity. Qed.

Lemma test_cons c t :
  test m (c :: t) = (match m (c :: t) with [] => false | _ :: _ => true end) || test m t.
Proof.
  simpl. destruct (m (c :: t)); reflexivity.
Qed.

End Testing.

Lemma test_illegalCharRegex s : test illegalCharRegex s = negb (forallb legal s).
Proof.
  induction s as [|c t IH]; [reflexivity|].
  rewrite test_cons, IH. unfold illegalCharRegex, cls, legal. cbn [forallb].
  destruct (illegalChar c); reflexivity.
Qed.

Lemma test_unescapedLtRegex s : test unescapedLtRegex s = negb (lts_escaped s).
Proof.
  induction s as [|c t IH]; [reflexivity|].
  rewrite test_cons, IH, unescapedLtRegex_at. cbn [lts_escaped].
  destruct ((c =? ch "<") && wsAhead t) eqn:E; [|reflexivity].
  destruct t as [|w t]; [now rewrite andb_false_r in E|reflexivity].
Qed.

Lemma test_malformedClosingRegex s : test malformedClosingRegex s = endsPartial s.
Proof.
  induction s as [|c t IH]; [reflexivity|].
  rewrite test_cons, IH, malformedClosingRegex_at. cbn [endsPartial].
  destruct ((c =? ch "<") && closingTail t); reflexivity.
Qed.

Lemma test_unescapedAmpRegex s : test unescapedAmpRegex s = false <-> amps_escaped s.
Proof.
  induction s as [|c t IH].
  - split; [intros _; apply amps_escaped_nil|reflexivity].
  - rewrite test_cons, unescapedAmpRegex_at, amps_escaped_cons, <- IH.
    destruct (N.eqb_spec c (ch "&")) as [->|Hc]; cbn [andb].
    + destruct (lookahead_hits t) eqn:E; cbn [negb orb].
      * split; [intros H; split; [intros _; now apply lookahead_hits_spec|exact H]
               |intros [_ H]; exact H].
      * split; [discriminate|]. intros [H _].
        apply lookahead_hits_spec in H; [congruence|reflexivity].
    + cbn [orb]. split; [intros H; split; [intros E; contradiction|exact H]
                        |intros [_ H]; exact H].
Qed.

Lemma wasModified_false parser x :
  wasModified (heuristicRepair parser x) = false <->
  fixedContent (heuristicRepair parser x) = x.
Proof.
  unfold heuristicRepair. cbn [wasModified fixedContent].
  rewrite negb_false_iff. apply str_eqb_eq.
Qed.

Lemma app_gt_differs (s : jsstring) : s ++ js ">" <> s.
Proof.
  intros E. apply (f_equal (@List.length unit16)) in E.
  rewrite length_app in E. cbn in E. lia.
Qed.

Lemma unchanged_means_no_pattern x :
  closeTag (spec_escapeLt (escapeAmp (filter legal x))) = x ->
  Forall (fun c => legal c = true) x /\ amps_escaped x /\
  lts_escaped x = true /\ endsPartial x = false.
Proof.
  intros E.
  assert (H1 := output_legal x). assert (H2 := output_amps_escaped x).
  assert (H3 := output_lts_escaped x). rewrite E in H1, H2, H3.
  repeat split; auto.
  rewrite (filter_fixed _ _ H1), (escapeAmp_fixed _ H2), (escapeLt_fixed _ H3) in E.
  unfold closeTag in E. destruct (endsPartial x); [|reflexivity].
  now apply app_gt_differs in E.
Qed.

(** X1: [wasModified] is false exactly when none of the four regular
    expressions matches the raw input: a replacement never reproduces the
    text it replaced, so [No heuristic patterns matched] is accurate. *)
Theorem unmodified_iff_no_pattern parser x :
  wasModified (heuristicRepair parser x) = false <->
  test illegalCharRegex x = false /\
  test unescapedAmpRegex x = false /\
  test unescapedLtRegex x = false /\
  test malformedClosingRegex x = false.
Proof.
  rewrite wasModified_false, heuristicRepair_fixedContent.
  rewrite test_illegalCharRegex, test_unescapedLtRegex, test_malformedClosingRegex,
    test_unescapedAmpRegex, !negb_false_iff.
  split.
  - intros E. apply unchanged_means_no_pattern in E.
    destruct E as (H1 & H2 & H3 & H4).
    repeat split; auto. now apply forallb_Forall_true.
  - intros (H1 & H2 & H3 & H4). apply fixes_inert; auto.
    now apply forallb_Forall_true.
Qed.

(** X2: none of the four regular expressions matches [fixedContent], so a
    second run over it reports [wasModified = false]. *)
Theorem output_matches_no_pattern parser parser' x :
  let out := fixedContent (heuristicRepair parser x) in
  test illegalCharRegex out = false /\
  test unescapedAmpRegex out = false /\
  test unescapedLtRegex out = false /\
  test malformedClosingRegex out = false /\
  wasModified (heuristicRepair parser' out) = false.
Proof.
  cbv zeta. rewrite wasModified_false, !heuristicRepair_fixedContent.
  set (out := closeTag (spec_escapeLt (escapeAmp (filter legal x)))).
  assert (H1 : Forall (fun c => legal c = true) out) by apply output_legal.
  assert (H2 : amps_escaped out) by apply output_amps_escaped.
  assert (H3 : lts_escaped out = true) by apply output_lts_escaped.
  assert (H4 : endsPartial out = false).
  { unfold out, closeTag.
    destruct (endsPartial (spec_escapeLt (escapeAmp (filter legal x)))) eqn:E;
      [apply endsPartial_gt|exact E]. }
  rewrite test_illegalCharRegex, test_unescapedLtRegex, test_malformedClosingRegex,
    test_unescapedAmpRegex, !negb_false_iff.
  repeat split; auto.
  - now apply forallb_Forall_true.
  - now apply fixes_inert.
Qed.

Lemma or_else_nonempty x dflt : dflt <> [] -> or_else x dflt <> [].
Proof.
  intros H. destruct x as [[|c t]|]; cbn; auto; discriminate.
Qed.

Lemma validateXML_coherent parser s :
  coherent {| fixedContent := s;
              isValid := Validation.isValid (validateXML parser s);
              errors := Validation.errors (validateXML parser s);
              wasModified := true |}.
Proof.
  unfold coherent, validateXML. cbn.
  destruct (parsererror parser s) as [message|]; cbn; [right|left; auto].
  split; [reflexivity|]. eexists. split; [reflexivity|].
  apply or_else_nonempty. discriminate.
Qed.

(** X3: every result of [heuristicRepair], and every result
    [repairWithGemini] returns, is valid with an empty error list or invalid
    with exactly one non-empty error message. *)
Theorem results_coherent parser :
  (forall x, coherent (heuristicRepair parser x)) /\
  (forall env newGoogleGenAI brokenContent r,
     repairWithGemini parser env newGoogleGenAI brokenContent = Fulfilled r ->
     coherent r).
Proof.
  split.
  - intros x. exact (validateXML_coherent parser (fixedContent (heuristicRepair parser x))).
  - intros env sdk b r. unfold repairWithGemini.
    destruct (API_KEY env) as [[|k key]|]; try discriminate.
    destruct (generateContent _ _); [|discriminate].
    intros E. injection E as <-. apply validateXML_coherent.
Qed.

Lemma results_coherent_witness :
  coherent (heuristicRepair strictParser (js "<a")) /\
  exists r,
    repairWithGemini strictParser someKey fencedAnswer (js "<a") = Fulfilled r /\
    coherent r.
Proof.
  destruct (results_coherent strictParser) as [H G].
  split; [apply H|].
  eexists. split; [reflexivity|].
  apply (G someKey fencedAnswer (js "<a")). reflexivity.
Defined.

(** ** Size of the output *)

Lemma count_le_length (s : jsstring) a b :
  a <> b ->
  (count_occ N.eq_dec s a + count_occ N.eq_dec s b <= List.length s)%nat.
Proof.
  intros Hab. induction s as [|c t IH]; [reflexivity|].
  cbn [count_occ List.length].
  destruct (N.eq_dec c a), (N.eq_dec c b); subst; try contradiction; lia.
Qed.

Lemma count_filter_le (p : unit16 -> bool) s a :
  (count_occ N.eq_dec (filter p s) a <= count_occ N.eq_dec s a)%nat.
Proof.
  induction s as [|c t IH]; [reflexivity|].
  cbn [filter]. destruct (p c); cbn [count_occ]; destruct (N.eq_dec c a); lia.
Qed.

Lemma count_occ_here (a : unit16) t :
  count_occ N.eq_dec (a :: t) a = S (count_occ N.eq_dec t a).
Proof. apply count_occ_cons_eq. reflexivity. Qed.

Lemma length_escapeAmp s :
  (List.length s <= List.length (escapeAmp s) <=
   List.length s + 4 * count_occ N.eq_dec s (ch "&"))%nat.
Proof.
  induction s as [|c t IH]; [cbn; lia|].
  cbn [escapeAmp]. destruct (N.eqb_spec c (ch "&")) as [->|Hc]; cbn [andb].
  - rewrite count_occ_here. destruct (negb (lookahead_hits t)).
    + rewrite length_app. change (List.length (js "&amp;")) with 5%nat.
      cbn [List.length]. unfold unit16 in *; lia.
    + cbn [List.length]. unfold unit16 in *; lia.
  - rewrite count_occ_cons_neq by congruence. cbn [List.length]. unfold unit16 in *; lia.
Qed.

Lemma count_lt_escapeAmp (s : list N) :
  count_occ N.eq_dec (escapeAmp s) (ch "<") = count_occ N.eq_dec s (ch "<").
Proof.
  induction s as [|c t IH]; [reflexivity|].
  cbn [escapeAmp]. destruct (N.eqb_spec c (ch "&")) as [->|Hc]; cbn [andb].
  - rewrite (count_occ_cons_neq N.eq_dec t) by discriminate.
    destruct (negb (lookahead_hits t)).
    + rewrite count_occ_app.
      change (count_occ N.eq_dec (js "&amp;") (ch "<")) with 0%nat.
      exact IH.
    + rewrite (count_occ_cons_neq N.eq_dec (escapeAmp t)) by discriminate.
      exact IH.
  - destruct (N.eq_dec c (ch "<")) as [->|Hn].
    + rewrite !count_occ_here. now f_equal.
    + rewrite !(count_occ_cons_neq N.eq_dec) by congruence. exact IH.
Qed.

Lemma length_escapeLt s :
  (List.length s <= List.length (spec_escapeLt s) <=
   List.length s + 3 * count_occ N.eq_dec s (ch "<"))%nat.
Proof.
  induction s as [|c t IH]; [cbn; lia|].
  cbn [spec_escapeLt]. destruct (N.eqb_spec c (ch "<")) as [->|Hc]; cbn [andb].
  - rewrite count_occ_here. destruct (wsAhead t).
    + rewrite length_app. change (List.length (js "&lt;")) with 4%nat.
      cbn [List.length]. unfold unit16 in *; lia.
    + cbn [List.length]. unfold unit16 in *; lia.
  - rewrite count_occ_cons_neq by congruence. cbn [List.length]. unfold unit16 in *; lia.
Qed.

Lemma length_closeTag s :
  (List.length s <= List.length (closeTag s) <= List.length s + 1)%nat.
Proof.
  unfold closeTag. destruct (endsPartial s); [|lia].
  rewrite length_app. cbn. lia.
Qed.

(** X4: the output is never shorter than the input without its illegal
    control characters, and never longer than five times the input plus one
    character. *)
Theorem output_length_bounds parser x :
  (List.length (filter (fun c => negb (illegalChar c)) x)
   <= List.length (fixedContent (heuristicRepair parser x))
   <= 5 * List.length x + 1)%nat.
Proof.
  rewrite heuristicRepair_fixedContent. fold legal.
  set (x1 := filter legal x).
  pose proof (length_escapeAmp x1) as H2.
  pose proof (length_escapeLt (escapeAmp x1)) as H3.
  pose proof (length_closeTag (spec_escapeLt (escapeAmp x1))) as H4.
  rewrite count_lt_escapeAmp in H3.
  assert (Hc : (count_occ N.eq_dec x1 (ch "&") + count_occ N.eq_dec x1 (ch "<")
                <= List.length x1)%nat) by (apply count_le_length; discriminate).
  assert (Hf : (List.length x1 <= List.length x)%nat) by apply filter_length_le.
  unfold jsstring, unit16 in *. lia.
Qed.

(** * Further properties of geminiService.ts *)

Lemma strip_prefix_spec w : forall s r, strip_prefix w s = Some r <-> s = w ++ r.
Proof.
  induction w as [|a w IH]; intros s r; cbn [strip_prefix app].
  - split; [intros E; now injection E|intros ->; reflexivity].
  - destruct s as [|c s]; [split; discriminate|].
    destruct (N.eqb_spec a c) as [->|Hac].
    + rewrite IH. split; [intros ->; reflexivity|intros E; now injection E].
    + split; [discriminate|]. intros E. injection E as E _. congruence.
Qed.

Lemma lit_strip w : forall s,
  lit w s = match strip_prefix w s with
            | Some r => [Outcome w r None]
            | None => []
            end.
Proof.
  induction w as [|a w IH]; intros s; cbn [lit strip_prefix]; [reflexivity|].
  destruct s as [|c s]; [reflexivity|].
  rewrite seq_cls_cons, IH.
  destruct (N.eqb_spec a c) as [->|Hac]; [|reflexivity].
  destruct (strip_prefix w s); reflexivity.
Qed.

Lemma replace_at_start_lit w s :
  replace_at_start (lit w) [] s =
  match strip_prefix w s with Some r => r | None => s end.
Proof.
  unfold replace_at_start. rewrite lit_strip.
  destruct (strip_prefix w s); reflexivity.
Qed.

Lemma lit_eos w s :
  seq (lit w) eos s =
  match strip_prefix w s with
  | Some [] => [Outcome w [] None]
  | _ => []
  end.
Proof.
  unfold seq. rewrite lit_strip.
  destruct (strip_prefix w s) as [[|c r]|]; cbn; try reflexivity.
  unfold then_. cbn. now rewrite app_nil_r.
Qed.

(** Replacing [/w$/] by nothing drops a trailing [w], and only that. *)
Lemma replace_suffix w : forall s,
  (exists p, s = p ++ w /\ replace (seq (lit w) eos) [] s = p) \/
  ((forall p, s <> p ++ w) /\ replace (seq (lit w) eos) [] s = s).
Proof.
  induction s as [|c t IH]; cbn [replace]; rewrite lit_eos.
  - destruct (strip_prefix w []) as [[|d r]|] eqn:E.
    + apply strip_prefix_spec in E. rewrite app_nil_r in E. subst w.
      left. exists []. now split.
    + right. split; [|reflexivity]. intros [|x p] H; [|discriminate].
      cbn in H. subst w. cbn in E. discriminate.
    + right. split; [|reflexivity]. intros [|x p] H; [|discriminate].
      cbn in H. subst w. cbn in E. discriminate.
  - assert (Hmiss : strip_prefix w (c :: t) <> Some [] ->
                    (exists p, c :: t = p ++ w /\ c :: replace (seq (lit w) eos) [] t = p) \/
                    ((forall p, c :: t <> p ++ w) /\
                     c :: replace (seq (lit w) eos) [] t = c :: t)).
    { intros Hn. destruct IH as [(p & -> & ->)|[Hno ->]].
      - left. now exists (c :: p).
      - right. split; [|reflexivity]. intros [|x p] H.
        + apply Hn. apply strip_prefix_spec. now rewrite app_nil_r.
        + injection H as _ H. now apply (Hno p). }
    destruct (strip_prefix w (c :: t)) as [[|d r]|] eqn:E.
    + apply strip_prefix_spec in E. rewrite app_nil_r in E.
      left. exists []. now split.
    + apply Hmiss. discriminate.
    + apply Hmiss. discriminate.
Qed.

Lemma replace_suffix_hit w p :
  replace (seq (lit w) eos) [] (p ++ w) = p.
Proof.
  destruct (replace_suffix w (p ++ w)) as [(q & E & ->)|[Hno _]].
  - symmetry. now apply app_inv_tail in E.
  - now contradiction (Hno p).
Qed.

Lemma or_else_some_nil a : or_else (Some a) [] = a.
Proof. destruct a; reflexivity. Qed.

Lemma repairWithGemini_response parser env newGoogleGenAI brokenContent key answer :
  API_KEY env = Some key -> key <> [] ->
  generateContent (newGoogleGenAI key) (requestFor brokenContent) = Response answer ->
  repairWithGemini parser env newGoogleGenAI brokenContent =
  Fulfilled
    {| fixedContent := stripFences (or_else answer []);
       isValid := Validation.isValid (validateXML parser (stripFences (or_else answer [])));
       errors := Validation.errors (validateXML parser (stripFences (or_else answer [])));
       wasModified := true |}.
Proof.
  intros Hk Hne Hg. unfold repairWithGemini. rewrite Hk.
  destruct key as [|k key]; [contradiction|].
  fold (requestFor brokenContent). now rewrite Hg.
Qed.

Lemma repairWithGemini_fulfilled parser env newGoogleGenAI brokenContent r :
  repairWithGemini parser env newGoogleGenAI brokenContent = Fulfilled r ->
  exists key answer,
    API_KEY env = Some key /\ key <> [] /\
    generateContent (newGoogleGenAI key) (requestFor brokenContent) = Response answer /\
    fixedContent r = stripFences (or_else answer []).
Proof.
  unfold repairWithGemini. destruct (API_KEY env) as [[|k key]|]; try discriminate.
  fold (requestFor brokenContent).
  destruct (generateContent _ _) as [answer|] eqn:Hg; [|discriminate].
  intros E. injection E as <-. exists (k :: key), answer.
  split; [reflexivity|]. split; [discriminate|]. now split.
Qed.

Lemma stripFences_trims answer :
  exists p q,
    answer = p ++ stripFences answer ++ q /\
    In p [[]; fenceXmlText; fenceText; fenceXmlText ++ fenceText] /\
    In q [[]; fenceCloseText].
Proof.
  unfold stripFences, fenceXmlOpen, fenceOpen, fenceCloseRegex.
  rewrite !replace_at_start_lit.
  fold fenceXmlText fenceText fenceCloseText.
  destruct (strip_prefix fenceXmlText answer) as [a1|] eqn:E1.
  - apply strip_prefix_spec in E1. subst answer.
    destruct (strip_prefix fenceText a1) as [a2|] eqn:E2.
    + apply strip_prefix_spec in E2. subst a1.
      destruct (replace_suffix fenceCloseText a2) as [(p & -> & ->)|[_ ->]].
      * exists (fenceXmlText ++ fenceText), fenceCloseText.
        split; [now rewrite <- app_assoc|]. cbn; auto 10.
      * exists (fenceXmlText ++ fenceText), [].
        split; [now rewrite app_nil_r, <- app_assoc|]. cbn; auto 10.
    + destruct (replace_suffix fenceCloseText a1) as [(p & -> & ->)|[_ ->]].
      * exists fenceXmlText, fenceCloseText. split; [reflexivity|]. cbn; auto 10.
      * exists fenceXmlText, []. split; [now rewrite app_nil_r|]. cbn; auto 10.
  - destruct (strip_prefix fenceText answer) as [a2|] eqn:E2.
    + apply strip_prefix_spec in E2. subst answer.
      destruct (replace_suffix fenceCloseText a2) as [(p & -> & ->)|[_ ->]].
      * exists fenceText, fenceCloseText. split; [reflexivity|]. cbn; auto 10.
      * exists fenceText, []. split; [now rewrite app_nil_r|]. cbn; auto 10.
    + destruct (replace_suffix fenceCloseText answer) as [(p & -> & ->)|[_ ->]].
      * exists [], fenceCloseText. split; [reflexivity|]. cbn; auto 10.
      * exists [], []. split; [now rewrite app_nil_r|]. cbn; auto 10.
Qed.

(** X5: the clean-up of the model's answer only trims: the text returned is
    the answer without a leading [```xml] line and/or [```] line and
    without a trailing line break and [```]; nothing inside is altered. *)
Theorem fences_only_trimmed parser env newGoogleGenAI brokenContent r :
  repairWithGemini parser env newGoogleGenAI brokenContent = Fulfilled r ->
  exists key answer p q,
    API_KEY env = Some key /\
    generateContent (newGoogleGenAI key) (requestFor brokenContent) = Response answer /\
    or_else answer [] = p ++ fixedContent r ++ q /\
    In p [[]; fenceXmlText; fenceText; fenceXmlText ++ fenceText] /\
    In q [[]; fenceCloseText].
Proof.
  intros H. apply repairWithGemini_fulfilled in H.
  destruct H as (key & answer & Hk & _ & Hg & ->).
  destruct (stripFences_trims (or_else answer [])) as (p & q & E & Hp & Hq).
  exists key, answer, p, q. auto.
Qed.

Lemma fences_only_trimmed_witness :
  exists r key answer p q,
    repairWithGemini strictParser someKey fencedAnswer (js "<a") = Fulfilled r /\
    API_KEY someKey = Some key /\
    generateContent (fencedAnswer key) (requestFor (js "<a")) = Response answer /\
    or_else answer [] = p ++ fixedContent r ++ q /\
    In p [[]; fenceXmlText; fenceText; fenceXmlText ++ fenceText] /\
    In q [[]; fenceCloseText].
Proof.
  eexists.
  destruct (fences_only_trimmed strictParser someKey fencedAnswer (js "<a") _ eq_refl)
    as (key & answer & p & q & H).
  exists key, answer, p, q. split; [reflexivity|exact H].
Defined.

Lemma no_backticks_no_fence body r :
  strip_prefix backticks body = None ->
  strip_prefix fenceText (body ++ 10 :: r) = None.
Proof.
  cbv [fenceText backticks]. cbn [app].
  destruct body as [|a [|b [|c body]]]; cbn [strip_prefix app].
  - intros _. reflexivity.
  - intros _. destruct (96 =? a); reflexivity.
  - intros _. destruct (96 =? a); [|reflexivity]. destruct (96 =? b); reflexivity.
  - destruct (96 =? a); [|reflexivity]. destruct (96 =? b); [|reflexivity].
    destruct (96 =? c); [discriminate|reflexivity].
Qed.

Lemma stripFences_plain_fence body :
  stripFences (fenceText ++ body ++ fenceCloseText) = body.
Proof.
  unfold stripFences, fenceXmlOpen, fenceOpen, fenceCloseRegex.
  rewrite !replace_at_start_lit. fold fenceCloseText.
  change (strip_prefix (backticks ++ js "xml" ++ [10]) (fenceText ++ body ++ fenceCloseText))
    with (@None jsstring).
  change (strip_prefix (backticks ++ [10]) (fenceText ++ body ++ fenceCloseText))
    with (Some (body ++ fenceCloseText)).
  apply replace_suffix_hit.
Qed.

Lemma stripFences_xml_fence body :
  strip_prefix backticks body = None ->
  stripFences (fenceXmlText ++ body ++ fenceCloseText) = body.
Proof.
  intros Hb. unfold stripFences, fenceXmlOpen, fenceOpen, fenceCloseRegex.
  rewrite !replace_at_start_lit. fold fenceCloseText fenceText.
  change (strip_prefix (backticks ++ js "xml" ++ [10]) (fenceXmlText ++ body ++ fenceCloseText))
    with (Some (body ++ fenceCloseText)).
  unfold fenceCloseText at 1 2. rewrite (no_backticks_no_fence _ _ Hb).
  apply (replace_suffix_hit (10 :: backticks)).
Qed.

(** X6: an answer wrapped as [```], line break, body, line break, [```]
    comes back as the body, validated; so does one wrapped with [```xml],
    provided the body does not itself begin with three backticks. *)
Theorem fenced_answer_unwrapped parser env newGoogleGenAI brokenContent key fence body :
  API_KEY env = Some key -> key <> [] ->
  generateContent (newGoogleGenAI key) (requestFor brokenContent) =
    Response (Some (fence ++ body ++ fenceCloseText)) ->
  fence = fenceText \/ (fence = fenceXmlText /\ strip_prefix backticks body = None) ->
  repairWithGemini parser env newGoogleGenAI brokenContent =
  Fulfilled {| fixedContent := body;
               isValid := Validation.isValid (validateXML parser body);
               errors := Validation.errors (validateXML parser body);
               wasModified := true |}.
Proof.
  intros Hk Hne Hg Hf.
  rewrite (repairWithGemini_response _ _ _ _ _ _ Hk Hne Hg), or_else_some_nil.
  destruct Hf as [->|[-> Hb]].
  - now rewrite stripFences_plain_fence.
  - now rewrite stripFences_xml_fence.
Qed.

Lemma fenced_answer_unwrapped_witness :
  repairWithGemini strictParser someKey fencedAnswer (js "<a") =
  Fulfilled {| fixedContent := js "<a/>"; isValid := true; errors := [];
               wasModified := true |}.
Proof.
  apply (fenced_answer_unwrapped strictParser someKey fencedAnswer (js "<a")
           (js "k") fenceXmlText (js "<a/>")).
  - reflexivity.
  - discriminate.
  - reflexivity.
  - right. split; reflexivity.
Defined.

(** X7: an answer that starts with neither fence line and does not end with
    a line break and [```] is returned as it is. *)
Theorem unfenced_answer_kept parser env newGoogleGenAI brokenContent key answer :
  API_KEY env = Some key -> key <> [] ->
  generateContent (newGoogleGenAI key) (requestFor brokenContent) = Response (Some answer) ->
  strip_prefix fenceXmlText answer = None ->
  strip_prefix fenceText answer = None ->
  (forall p, answer <> p ++ fenceCloseText) ->
  repairWithGemini parser env newGoogleGenAI brokenContent =
  Fulfilled {| fixedContent := answer;
               isValid := Validation.isValid (validateXML parser answer);
               errors := Validation.errors (validateXML parser answer);
               wasModified := true |}.
Proof.
  intros Hk Hne Hg H1 H2 H3.
  rewrite (repairWithGemini_response _ _ _ _ _ _ Hk Hne Hg), or_else_some_nil.
  assert (E : stripFences answer = answer).
  { unfold stripFences, fenceXmlOpen, fenceOpen, fenceCloseRegex.
    rewrite !replace_at_start_lit. fold fenceXmlText fenceText fenceCloseText.
    rewrite H1, H2.
    destruct (replace_suffix fenceCloseText answer) as [(p & E & _)|[_ E]]; [|exact E].
    now contradiction (H3 p). }
  now rewrite E.
Qed.

(** An endpoint that answers with a bare document. *)
Lemma unfenced_answer_kept_witness :
  repairWithGemini strictParser someKey
    (fun _ => {| generateContent := fun _ => Response (Some plainDoc) |}) (js "<a") =
  Fulfilled {| fixedContent := plainDoc; isValid := true; errors := [];
               wasModified := true |}.
Proof.
  apply (unfenced_answer_kept strictParser someKey _ (js "<a") (js "k") plainDoc).
  - reflexivity.
  - discriminate.
  - reflexivity.
  - reflexivity.
  - reflexivity.
  - intros p E. apply (f_equal (@rev unit16)) in E. rewrite rev_app_distr in E.
    discriminate E.
Defined.

(** X9: when the endpoint's response has no text (undefined or empty),
    [repairWithGemini] still returns a result: the empty document, validated,
    with [wasModified = true]. *)
Theorem empty_answer_returned parser env newGoogleGenAI brokenContent key answer :
  API_KEY env = Some key -> key <> [] ->
  generateContent (newGoogleGenAI key) (requestFor brokenContent) = Response answer ->
  answer = None \/ answer = Some [] ->
  repairWithGemini parser env newGoogleGenAI brokenContent =
  Fulfilled {| fixedContent := [];
               isValid := Validation.isValid (validateXML parser []);
               errors := Validation.errors (validateXML parser []);
               wasModified := true |}.
Proof.
  intros Hk Hne Hg Ha.
  rewrite (repairWithGemini_response _ _ _ _ _ _ Hk Hne Hg).
  destruct Ha as [-> | ->]; reflexivity.
Qed.

Lemma empty_answer_returned_witness :
  repairWithGemini strictParser someKey
    (fun _ => {| generateContent := fun _ => Response None |}) (js "<a") =
  Fulfilled {| fixedContent := []; isValid := false;
               errors := [js "error on line 1"]; wasModified := true |}.
Proof.
  apply (empty_answer_returned strictParser someKey _ (js "<a") (js "k") None).
  - reflexivity.
  - discriminate.
  - reflexivity.
  - now left.
Defined.

(** * Properties of App.tsx *)

Lemma split_nonempty sep s : split sep s <> [].
Proof.
  destruct s as [|c t]; cbn [split]; [discriminate|].
  destruct (c =? sep); [discriminate|].
  destruct (split sep t); discriminate.
Qed.

Lemma split_no_sep sep e : ~ In sep e -> split sep e = [e].
Proof.
  induction e as [|c t IH]; intros H; [reflexivity|].
  cbn [split]. destruct (N.eqb_spec c sep) as [->|Hc].
  - contradiction H. now left.
  - rewrite IH; [reflexivity|]. intros Hin. apply H. now right.
Qed.

Lemma split_last sep stem e :
  ~ In sep e -> split sep (stem ++ sep :: e) = split sep stem ++ [e].
Proof.
  intros He. induction stem as [|c t IH]; cbn [app split].
  - rewrite N.eqb_refl. now rewrite split_no_sep.
  - rewrite IH. destruct (c =? sep); [reflexivity|].
    destruct (split sep t) as [|piece pieces] eqn:E; [|reflexivity].
    now apply split_nonempty in E.
Qed.

Lemma pop_snoc a e : pop (a ++ [e]) = Some e.
Proof.
  induction a as [|x a IH]; [reflexivity|].
  cbn [app pop]. destruct (a ++ [e]) eqn:E; [|exact IH].
  now destruct a.
Qed.

Lemma includes_allowed t :
  includes ALLOWED_EXTENSIONS (js "." ++ t) = true <->
  In t [js "xlf"; js "xliff"; js "xml"].
Proof.
  unfold includes, ALLOWED_EXTENSIONS. cbn [existsb In].
  rewrite !orb_true_iff, !str_eqb_eq. cbn.
  split.
  - intros [E|[E|[E|E]]]; try discriminate; injection E as <-; auto.
  - intros [<-|[<-|[<-|[]]]]; auto.
Qed.

(** X10: the extension tested is the lower-cased text after the last dot of
    the file name, and for a name without a dot the whole lower-cased name;
    the type check passes exactly when that text is [xlf], [xliff] or [xml]. *)
Theorem extension_is_last_piece toLowerCase stem e :
  ~ In (ch ".") e ->
  App.extensionOf toLowerCase (stem ++ ch "." :: e) = js "." ++ toLowerCase e /\
  App.extensionOf toLowerCase e = js "." ++ toLowerCase e /\
  (includes ALLOWED_EXTENSIONS (js "." ++ toLowerCase e) = true <->
   In (toLowerCase e) [js "xlf"; js "xliff"; js "xml"]).
Proof.
  intros He. unfold App.extensionOf.
  rewrite split_last, pop_snoc, split_no_sep by exact He.
  repeat split; try apply includes_allowed.
Qed.

Lemma extension_is_last_piece_witness :
  App.extensionOf asciiLower (js "my.file" ++ ch "." :: js "XLF") = js ".xlf" /\
  App.extensionOf asciiLower (js "XML") = js ".xml" /\
  includes ALLOWED_EXTENSIONS (js "." ++ asciiLower (js "XLF")) = true.
Proof.
  assert (H1 : ~ In (ch ".") (js "XLF")).
  { cbn. intros [E|[E|[E|[]]]]; discriminate. }
  assert (H2 : ~ In (ch ".") (js "XML")).
  { cbn. intros [E|[E|[E|[]]]]; discriminate. }
  destruct (extension_is_last_piece asciiLower (js "my.file") (js "XLF") H1)
    as (E1 & _ & E3).
  destruct (extension_is_last_piece asciiLower [] (js "XML") H2) as (_ & E2 & _).
  split; [exact E1|]. split; [exact E2|]. apply E3. cbn. auto.
Defined.

(** X11: a file over 5 MB, or one whose extension is not allowed, is never
    read: [file] and [result] stay as they are and exactly one ERROR entry
    is added to the log, about the size if the file is too large (whatever
    its name), about the type otherwise. *)
Theorem rejected_file_changes_nothing toLowerCase f read stamp st :
  MAX_FILE_SIZE < App.File.size f \/
  includes ALLOWED_EXTENSIONS (App.extensionOf toLowerCase (App.File.name f)) = false ->
  let st' := App.run (App.handleFileRead toLowerCase f read stamp) st in
  App.file st' = App.file st /\
  App.result st' = App.result st /\
  App.isProcessing st' = App.isProcessing st /\
  exists e,
    App.logs st' = App.logs st ++ [e] /\
    App.level e = App.ERROR /\
    exists detail,
      App.message e =
      (if MAX_FILE_SIZE <? App.File.size f
       then js "File too large: " else js "Invalid file type: ") ++ detail.
Proof.
  intros H. cbv zeta. unfold App.handleFileRead.
  destruct (N.ltb_spec MAX_FILE_SIZE (App.File.size f)) as [Hs|Hs].
  - cbn. repeat split. eexists. split; [reflexivity|]. split; [reflexivity|].
    eexists. reflexivity.
  - destruct H as [H|H]; [lia|]. rewrite H. cbn [negb].
    cbn. repeat split. eexists. split; [reflexivity|]. split; [reflexivity|].
    eexists. reflexivity.
Qed.

Lemma rejected_file_changes_nothing_witness :
  let f := {| App.File.name := js "notes.xml"; App.File.size := 5242881 |} in
  let st' := App.run (App.handleFileRead asciiLower f (App.Loaded (js "<a/>")) stampA)
               emptyState in
  App.file st' = None /\
  map App.message (App.logs st') = [js "File too large: 5.00MB. Max is 5MB."].
Proof.
  cbv zeta.
  destruct (rejected_file_changes_nothing asciiLower
              {| App.File.name := js "notes.xml"; App.File.size := 5242881 |}
              (App.Loaded (js "<a/>")) stampA emptyState) as (H & _).
  - left. reflexivity.
  - split; [exact H|reflexivity].
Defined.

(** X12: a file of at most 5 MB (5242880 bytes included) with an allowed
    extension, once read, becomes the current file; the previous result is
    dropped and the log is emptied before the single [File loaded] entry is
    written. If the read fails, only an ERROR entry is added. *)
Theorem allowed_file_loaded toLowerCase f text stamp st :
  App.File.size f <= MAX_FILE_SIZE ->
  includes ALLOWED_EXTENSIONS (App.extensionOf toLowerCase (App.File.name f)) = true ->
  let st' := App.run (App.handleFileRead toLowerCase f (App.Loaded text) stamp) st in
  let st'' := App.run (App.handleFileRead toLowerCase f App.ReadFailed stamp) st in
  App.file st' = Some {| App.name := App.File.name f;
                         App.content := text;
                         App.size := App.File.size f |} /\
  App.result st' = None /\
  (exists e, App.logs st' = [e] /\ App.level e = App.INFO) /\
  App.isProcessing st' = App.isProcessing st /\
  App.file st'' = App.file st /\
  App.result st'' = App.result st /\
  (exists e, App.logs st'' = App.logs st ++ [e] /\ App.level e = App.ERROR /\
             App.message e = js "Failed to read file.").
Proof.
  intros Hs He. cbv zeta. unfold App.handleFileRead.
  destruct (N.ltb_spec MAX_FILE_SIZE (App.File.size f)) as [Hlt|_]; [lia|].
  rewrite He. cbn [negb]. cbn.
  repeat split; eexists; repeat split.
Qed.

Lemma allowed_file_loaded_witness :
  let f := {| App.File.name := js "Doc.XLF"; App.File.size := 5242880 |} in
  let st' := App.run (App.handleFileRead asciiLower f (App.Loaded (js "<a/>")) stampA)
               emptyState in
  App.file st' = Some {| App.name := js "Doc.XLF"; App.content := js "<a/>";
                         App.size := 5242880 |} /\
  map App.message (App.logs st') = [js "File loaded: Doc.XLF (5120.0KB)"].
Proof.
  cbv zeta.
  destruct (allowed_file_loaded asciiLower
              {| App.File.name := js "Doc.XLF"; App.File.size := 5242880 |}
              (js "<a/>") stampA emptyState) as (H & _).
  - discriminate.
  - reflexivity.
  - split; [exact H|reflexivity].
Defined.

Lemma firstError_of_invalid parser s :
  Validation.isValid (validateXML parser s) = false ->
  exists e, Validation.errors (validateXML parser s) = [e] /\ e <> [] /\
            App.firstError (Validation.errors (validateXML parser s)) = e.
Proof.
  unfold validateXML. destruct (parsererror parser s) as [message|]; [|discriminate].
  intros _. cbn. eexists. split; [reflexivity|]. split; [|reflexivity].
  apply or_else_nonempty. discriminate.
Qed.

(** X13: with a file present, a heuristic run stores the result of
    [heuristicRepair] on the file's content, ends with [isProcessing] false
    and adds four log entries; the third is the WARNING exactly when the
    text came back unchanged, the fourth is a SUCCESS exactly when the result
    is valid, and otherwise reads [XML Validation Failed: ] followed by the
    result's one, non-empty, error message (never [undefined]). Without a
    file the handler does nothing. *)
Theorem heuristic_run_outcome parser f s0 s1 s2 s3 st :
  let st' := App.run (App.runHeuristicRepair parser (Some f) s0 s1 s2 s3) st in
  let r := heuristicRepair parser (App.content f) in
  App.result st' = Some r /\
  App.isProcessing st' = false /\
  App.file st' = App.file st /\
  (exists e0 e1 e2 e3,
     App.logs st' = App.logs st ++ [e0; e1; e2; e3] /\
     (App.level e2 = App.WARNING <-> fixedContent r = App.content f) /\
     (App.level e3 = App.SUCCESS <-> isValid r = true) /\
     (isValid r = false ->
      exists e, errors r = [e] /\ e <> [] /\
                App.message e3 = js "XML Validation Failed: " ++ e)) /\
  App.run (App.runHeuristicRepair parser None s0 s1 s2 s3) st = st.
Proof.
  cbv zeta. unfold App.runHeuristicRepair.
  pose proof (wasModified_false parser (App.content f)) as Hw.
  pose proof (firstError_of_invalid parser
                (fixedContent (heuristicRepair parser (App.content f)))) as Hv.
  change (Validation.isValid (validateXML parser
            (fixedContent (heuristicRepair parser (App.content f)))))
    with (isValid (heuristicRepair parser (App.content f))) in Hv.
  change (Validation.errors (validateXML parser
            (fixedContent (heuristicRepair parser (App.content f)))))
    with (errors (heuristicRepair parser (App.content f))) in Hv.
  remember (heuristicRepair parser (App.content f)) as r eqn:Hr. clear Hr.
  split; [|split; [|split; [|split; [|reflexivity]]]].
  - destruct (wasModified r), (isValid r); reflexivity.
  - destruct (wasModified r), (isValid r); reflexivity.
  - destruct (wasModified r), (isValid r); reflexivity.
  - destruct (wasModified r) eqn:Ew, (isValid r) eqn:Ev; cbn;
      rewrite <- !app_assoc; cbn [app];
      do 4 eexists; (split; [reflexivity|]); cbn; (split; [|split]).
    all: try (split; [discriminate|intros E; apply Hw in E; discriminate]).
    all: try (split; [intros _; now apply Hw|reflexivity]).
    all: try (split; [reflexivity|reflexivity]).
    all: try (split; [discriminate|discriminate]).
    all: try (intros Hf; discriminate Hf).
    all: intros _; destruct (Hv eq_refl) as (e & He & Hne & _);
      exists e; rewrite He; cbn; auto.
Qed.

(** X14: with a file present, an AI run always ends with [isProcessing]
    false. If [repairWithGemini] returned a result, that result is stored;
    if it failed, the earlier result is kept and the log ends with
    [AI Repair Failed: ] followed by the (non-empty) error message and the
    tip about the API key. Without a file the handler does nothing. *)
Theorem gemini_run_outcome parser env newGoogleGenAI f s0 s1 s2 st :
  let st' := App.run (App.runGeminiRepair parser env newGoogleGenAI (Some f) s0 s1 s2) st in
  App.isProcessing st' = false /\
  App.file st' = App.file st /\
  match repairWithGemini parser env newGoogleGenAI (App.content f) with
  | Fulfilled r =>
      App.result st' = Some r /\
      exists e0 e1 e2,
        App.logs st' = App.logs st ++ [e0; e1; e2] /\
        (App.level e2 = App.SUCCESS <-> isValid r = true)
  | Rejected message =>
      App.result st' = App.result st /\
      message <> [] /\
      exists e0 e1 e2,
        App.logs st' = App.logs st ++ [e0; e1; e2] /\
        App.level e1 = App.ERROR /\
        App.message e1 = js "AI Repair Failed: " ++ message /\
        App.message e2 = js "Tip: Ensure you have selected a valid API Key."
  end /\
  App.run (App.runGeminiRepair parser env newGoogleGenAI None s0 s1 s2) st = st.
Proof.
  cbv zeta. unfold App.runGeminiRepair.
  destruct (repairWithGemini parser env newGoogleGenAI (App.content f))
    as [r|message] eqn:E.
  - split; [|split; [|split; [|reflexivity]]].
    + destruct (isValid r); reflexivity.
    + destruct (isValid r); reflexivity.
    + split; [destruct (isValid r); reflexivity|].
      destruct (isValid r); cbn; rewrite <- !app_assoc; cbn [app];
        do 3 eexists; (split; [reflexivity|]); cbn;
        split; (discriminate || reflexivity).
  - assert (Hm : message <> []).
    { unfold repairWithGemini in E.
      destruct (API_KEY env) as [[|k key]|];
        try (injection E as <-; discriminate).
      destruct (generateContent _ _); [discriminate|].
      injection E as <-. apply or_else_nonempty. discriminate. }
    split; [reflexivity|]. split; [reflexivity|]. split; [|reflexivity].
    split; [reflexivity|]. split; [exact Hm|].
    cbn. rewrite <- !app_assoc. cbn [app].
    do 3 eexists. split; [reflexivity|]. cbn. auto.
Qed.

Lemma heuristic_run_outcome_witness :
  let f := {| App.name := js "a.xlf"; App.content := js "A & B"; App.size := 5 |} in
  let st' := App.run (App.runHeuristicRepair strictParser (Some f) stampA stampA stampA stampA)
               emptyState in
  App.isProcessing st' = false /\
  map App.message (App.logs st') =
  [js "Starting heuristic repair...";
   js "Scanning for illegal control characters...";
   js "Modifications applied to file structure.";
   js "XML Validation Failed: error on line 1"].
Proof.
  cbv zeta.
  destruct (heuristic_run_outcome strictParser
              {| App.name := js "a.xlf"; App.content := js "A & B"; App.size := 5 |}
              stampA stampA stampA stampA emptyState) as (_ & H & _).
  split; [exact H|reflexivity].
Defined.

Lemma gemini_run_outcome_witness :
  let f := {| App.name := js "a.xlf"; App.content := js "A & B"; App.size := 5 |} in
  let st' := App.run (App.runGeminiRepair strictParser noKey fencedAnswer (Some f)
                        stampA stampA stampA) emptyState in
  App.isProcessing st' = false /\
  App.result st' = None /\
  map App.message (App.logs st') =
  [js "Initializing AI Repair Agent (Gemini 2.5)...";
   js "AI Repair Failed: API Key not found. Please select a key.";
   js "Tip: Ensure you have selected a valid API Key."].
Proof.
  cbv zeta.
  destruct (gemini_run_outcome strictParser noKey fencedAnswer
              {| App.name := js "a.xlf"; App.content := js "A & B"; App.size := 5 |}
              stampA stampA stampA emptyState) as (H & _).
  split; [exact H|]. split; reflexivity.
Defined.
